(** * re-context: cancellation and value propagation over a tree of contexts

    A shallow embedding of [context.go] (package [recontext]).

    - A [Context] interface value is one of the three node shapes of the
      package ([*emptyCtx], [*valueCtx], [*cancelCtx]) or an implementation
      supplied from outside the package.
    - [valueCtx] is immutable and is embedded as a value; [cancelCtx] is the
      only mutable node and lives in a store indexed by its address.
    - Channels have an identity and an open/closed flag kept in the store;
      [closedchan] is the package-level channel closed by [init].
    - Methods run to completion one after the other: the embedding is
      sequential, so the [mu.Lock()]/[mu.Unlock()] brackets are the identity
      on the store and are left out.
    - A panic is an outcome of its own.  Loops that follow parent pointers
      through the store, and the recursion of [cancel] into children, are
      bounded by a fuel argument; running out of it is a third outcome. *)

From stdpp Require Import gmap strings list fin_maps.
From Stdlib Require Import ZArith.

Set Default Proof Using "Type".

(** ** Values of interface type *)

Definition loc := nat.

(** A [float64]: NaN or a number.  Of the numbers the integral ones are
    enough here: what matters is that NaN differs from itself. *)
Inductive float64 :=
| NaN
| Num (z : Z).

Global Instance float64_eq_dec : EqDecision float64.
Proof. solve_decision. Defined.

(** The dynamic values that flow through [any] in this package, one kind
    for each way [==] and [Comparable()] can go: [nil]; ints and strings
    (equal to themselves); a [float64] (NaN is not equal to itself); a slice
    [[]int] (its type is not comparable); an array [[1]any{a}] (its type is
    comparable, but comparing two of them compares the interface values
    inside, which can panic); the address [&cancelCtxKey]; and a
    [*cancelCtx]. *)
Inductive any :=
| ANil
| AInt (z : Z)
| AStr (s : string)
| ASlice (xs : list Z)
| ACancelCtxKey
| ACancelCtx (l : loc)
| AFloat (f : float64)
| AArray (a : any).

Global Instance any_eq_dec : EqDecision any.
Proof. solve_decision. Defined.

(** [reflect.TypeOf(key).Comparable()]: a property of the dynamic type
    alone.  [float64] and [[1]any] are comparable types, a slice type is
    not. *)
Definition comparable (a : any) : bool :=
  match a with
  | ASlice _ => false
  | _ => true
  end.

(** [==] on two [float64]: false as soon as one side is NaN. *)
Definition float64_eq (f g : float64) : bool :=
  match f, g with
  | Num x, Num y => bool_decide (x = y)
  | _, _ => false
  end.

(** Go's [==] on two interface values.  Different dynamic types: false.
    The same dynamic type: a run-time panic when the type is not comparable
    (two slices), the comparison of the values otherwise, which for floats
    is [float64_eq] and for two arrays [[1]any] is [==] on the interface
    values they hold, panic included. *)
Fixpoint any_eq (a b : any) : option bool :=
  match a, b with
  | ASlice _, ASlice _ => None
  | AFloat f, AFloat g => Some (float64_eq f g)
  | AArray x, AArray y => any_eq x y
  | _, _ => Some (bool_decide (a = b))
  end.

Inductive error :=
| Canceled
| ErrorString (s : string).

Global Instance error_eq_dec : EqDecision error.
Proof. solve_decision. Defined.

(** ** Channels *)

Inductive chan :=
| closedchan
| mkchan (n : nat).

Global Instance chan_eq_dec : EqDecision chan.
Proof. solve_decision. Defined.

(** ** Contexts *)

Inductive emptyCtx := background | todo.

(** A [Context] implemented outside the package: its four methods. *)
Record extCtx := {
  extDeadline : Z * bool;
  extDone : option chan;
  extErr : option error;
  extValue : any → any;
}.

Inductive Context :=
| emptyCtxP (e : emptyCtx)
| valueCtxP (parent : Context) (key val : any)
| cancelCtxP (l : loc)
| extCtxP (x : extCtx).

Record cancelCtx := {
  Context_ : Context;
  done : option chan;
  children : option (gset loc);
  err : option error;
  cause : option error;
}.

Definition set_done (d : option chan) (c : cancelCtx) : cancelCtx :=
  {| Context_ := Context_ c; done := d; children := children c;
     err := err c; cause := cause c |}.
Definition set_children (s : option (gset loc)) (c : cancelCtx) : cancelCtx :=
  {| Context_ := Context_ c; done := done c; children := s;
     err := err c; cause := cause c |}.
Definition set_err (e : option error) (c : cancelCtx) : cancelCtx :=
  {| Context_ := Context_ c; done := done c; children := children c;
     err := e; cause := cause c |}.
Definition set_cause (e : option error) (c : cancelCtx) : cancelCtx :=
  {| Context_ := Context_ c; done := done c; children := children c;
     err := err c; cause := e |}.

(** ** The store *)

Record State := {
  heap : gmap loc cancelCtx;
  chans : gmap nat bool;
}.

Definition empty_state : State := {| heap := ∅; chans := ∅ |}.

Definition is_closed (st : State) (ch : chan) : bool :=
  match ch with
  | closedchan => true
  | mkchan n => default false (chans st !! n)
  end.

(** ** Outcomes *)

Inductive outcome (A : Type) :=
| Ok (a : A)
| Panic (msg : string)
| OutOfFuel.
Arguments Ok {A} a.
Arguments Panic {A} msg.
Arguments OutOfFuel {A}.

Definition M (A : Type) := State → outcome (A * State).

Definition ret {A} (a : A) : M A := λ st, Ok (a, st).
Definition panic {A} (msg : string) : M A := λ _, Panic msg.
Definition bind {A B} (m : M A) (k : A → M B) : M B :=
  λ st, match m st with
        | Ok (a, st') => k a st'
        | Panic msg => Panic msg
        | OutOfFuel => OutOfFuel
        end.
Definition read {A} (f : State → outcome A) : M A :=
  λ st, match f st with
        | Ok a => Ok (a, st)
        | Panic msg => Panic msg
        | OutOfFuel => OutOfFuel
        end.

Notation "'let*' x := m 'in' k" := (bind m (λ x, k))
  (at level 10, x name, m at level 100, k at level 200).
Notation "m ;;; k" := (bind m (λ _, k))
  (at level 100, k at level 200, right associativity).

Definition nil_deref : string := "invalid memory address or nil pointer dereference".

(** [*c] for [c : *cancelCtx] *)
Definition deref (l : loc) : M cancelCtx :=
  λ st, match heap st !! l with
        | Some c => Ok (c, st)
        | None => Panic nil_deref
        end.

(** a write to one field of [*c] *)
Definition modify (l : loc) (f : cancelCtx → cancelCtx) : M unit :=
  λ st, match heap st !! l with
        | Some c => Ok (tt, {| heap := <[l := f c]> (heap st); chans := chans st |})
        | None => Panic nil_deref
        end.

(** [&cancelCtx{Context: parent}] *)
Definition alloc (c : cancelCtx) : M loc :=
  λ st, let l := fresh (dom (heap st)) in
        Ok (l, {| heap := <[l := c]> (heap st); chans := chans st |}).

(** [make(chan struct{})] *)
Definition make_chan : M chan :=
  λ st, let n := fresh (dom (chans st)) in
        Ok (mkchan n, {| heap := heap st; chans := <[n := false]> (chans st) |}).

(** [close(d)] *)
Definition close (d : chan) : M unit :=
  λ st, match d with
        | closedchan => Panic "close of closed channel"
        | mkchan n =>
            if is_closed st d then Panic "close of closed channel"
            else Ok (tt, {| heap := heap st; chans := <[n := true]> (chans st) |})
        end.

Definition obind {A B} (o : outcome A) (k : A → outcome B) : outcome B :=
  match o with
  | Ok a => k a
  | Panic msg => Panic msg
  | OutOfFuel => OutOfFuel
  end.

Fixpoint forEach {A} (xs : list A) (f : A → M unit) : M unit :=
  match xs with
  | [] => ret tt
  | x :: xs => f x ;;; forEach xs f
  end.

(** ** Methods of the node shapes *)

(** The methods of [emptyCtx]; [Deadline] returns the zero time and [false]. *)
Definition emptyCtx_Deadline : Z * bool := (0%Z, false).
Definition emptyCtx_Done : option chan := None.
Definition emptyCtx_Err : option error := None.
Definition emptyCtx_Value (key : any) : any := ANil.

Definition emptyCtx_String (e : emptyCtx) : string :=
  match e with
  | background => "context.Background"
  | todo => "context.TODO"
  end.

(** [func (c *cancelCtx) Done()]: the fast path returns the published
    channel; otherwise the field is loaded again and, when still absent, a
    fresh channel is made and stored. *)
Definition cancelCtx_Done (c : loc) : M (option chan) :=
  let* r := deref c in
  match done r with
  | Some d => ret (Some d)
  | None =>
      let* r' := deref c in
      match done r' with
      | Some d => ret (Some d)
      | None =>
          let* d := make_chan in
          modify c (set_done (Some d)) ;;;
          ret (Some d)
      end
  end.

(** [func (c *cancelCtx) Err()] *)
Definition cancelCtx_Err (c : loc) (st : State) : outcome (option error) :=
  match heap st !! c with
  | Some r => Ok (err r)
  | None => Panic nil_deref
  end.

(** [Done] through the interface.  [valueCtx] has no [Done] of its own: the
    call goes to the embedded [Context]. *)
Fixpoint Done (c : Context) : M (option chan) :=
  match c with
  | emptyCtxP _ => ret emptyCtx_Done
  | valueCtxP parent _ _ => Done parent
  | cancelCtxP l => cancelCtx_Done l
  | extCtxP x => ret (extDone x)
  end.

(** [Err] through the interface; [valueCtx] inherits it. *)
Fixpoint Err (c : Context) (st : State) : outcome (option error) :=
  match c with
  | emptyCtxP _ => Ok emptyCtx_Err
  | valueCtxP parent _ _ => Err parent st
  | cancelCtxP l => cancelCtx_Err l st
  | extCtxP x => Ok (extErr x)
  end.

(** [Deadline] through the interface; neither [valueCtx] nor [cancelCtx]
    defines it, so both forward to the embedded [Context]. *)
Fixpoint Deadline (fuel : nat) (c : Context) (st : State) : outcome (Z * bool) :=
  match fuel with
  | 0 => OutOfFuel
  | S fuel =>
      match c with
      | emptyCtxP _ => Ok emptyCtx_Deadline
      | valueCtxP parent _ _ => Deadline fuel parent st
      | cancelCtxP l =>
          match heap st !! l with
          | Some r => Deadline fuel (Context_ r) st
          | None => Panic nil_deref
          end
      | extCtxP x => Ok (extDeadline x)
      end
  end.

Definition uncomparable : string := "runtime error: comparing uncomparable type".

(** [func value(c Context, key any) any]: one unit of fuel per iteration of
    the [for] loop. *)
Fixpoint value (fuel : nat) (c : Context) (key : any) (st : State) : outcome any :=
  match fuel with
  | 0 => OutOfFuel
  | S fuel =>
      match c with
      | valueCtxP parent k v =>
          match any_eq key k with
          | None => Panic uncomparable
          | Some true => Ok v
          | Some false => value fuel parent key st
          end
      | cancelCtxP l =>
          match any_eq key ACancelCtxKey with
          | None => Panic uncomparable
          | Some true => Ok (ACancelCtx l)
          | Some false =>
              match heap st !! l with
              | Some r => value fuel (Context_ r) key st
              | None => Panic nil_deref
              end
          end
      | emptyCtxP _ => Ok ANil
      | extCtxP x => Ok (extValue x key)
      end
  end.

(** [func (c *valueCtx) Value(key any) any] *)
Definition valueCtx_Value (fuel : nat) (parent : Context) (k v : any)
    (key : any) (st : State) : outcome any :=
  match any_eq k key with
  | None => Panic uncomparable
  | Some true => Ok v
  | Some false => value fuel parent key st
  end.

(** [func (c *cancelCtx) Value(key any) any] *)
Definition cancelCtx_Value (fuel : nat) (c : loc) (key : any) (st : State) : outcome any :=
  match any_eq key ACancelCtxKey with
  | None => Panic uncomparable
  | Some true => Ok (ACancelCtx c)
  | Some false =>
      match heap st !! c with
      | Some r => value fuel (Context_ r) key st
      | None => Panic nil_deref
      end
  end.

(** [Value] through the interface. *)
Definition Value (fuel : nat) (c : Context) (key : any) (st : State) : outcome any :=
  match c with
  | emptyCtxP _ => Ok (emptyCtx_Value key)
  | valueCtxP parent k v => valueCtx_Value fuel parent k v key st
  | cancelCtxP l => cancelCtx_Value fuel l key st
  | extCtxP x => Ok (extValue x key)
  end.

(** [func Cause(c Context) error] *)
Definition Cause (fuel : nat) (c : Context) (st : State) : outcome (option error) :=
  obind (Value fuel c ACancelCtxKey st) (λ v,
    match v with
    | ACancelCtx cc =>
        match heap st !! cc with
        | Some r => Ok (cause r)
        | None => Panic nil_deref
        end
    | _ => Ok None
    end).

(** [func parentCancelCtx(parent Context)]: the pointer, or [None] for [(nil, false)]. *)
Definition parentCancelCtx (fuel : nat) (parent : Context) : M (option loc) :=
  let* d := Done parent in
  if bool_decide (d = Some closedchan ∨ d = None) then ret None
  else
    let* v := read (Value fuel parent ACancelCtxKey) in
    match v with
    | ACancelCtx p =>
        let* r := deref p in
        if bool_decide (done r ≠ d) then ret None else ret (Some p)
    | _ => ret None
    end.

(** [func removeChild(parent Context, child canceler)] *)
Definition removeChild (fuel : nat) (parent : Context) (child : loc) : M unit :=
  let* p := parentCancelCtx fuel parent in
  match p with
  | None => ret tt
  | Some p =>
      let* r := deref p in
      match children r with
      | Some s => modify p (set_children (Some (s ∖ {[child]})))
      | None => ret tt
      end
  end.

Definition missing_cancel_error : string :=
  "context: internal error: missing cancel error".

(** [func (c *cancelCtx) cancel(removeFromParent bool, err, cause error)].
    The fields read after the first assignments ([done], [children],
    [Context]) are not written in between, so they are taken from the record
    loaded at the [c.err != nil] test.  Fuel bounds the depth of the calls
    into children and the walk made by [removeChild]. *)
Fixpoint cancel (fuel : nat) (c : loc) (removeFromParent : bool)
    (err0 cause0 : option error) : M unit :=
  match err0 with
  | None => panic missing_cancel_error
  | Some _ =>
      let cause1 := match cause0 with None => err0 | Some _ => cause0 end in
      let* r := deref c in
      match err r with
      | Some _ => ret tt
      | None =>
          modify c (set_err err0) ;;;
          modify c (set_cause cause1) ;;;
          match done r with
          | None => modify c (set_done (Some closedchan))
          | Some d => close d
          end ;;;
          forEach (elements (default ∅ (children r))) (λ child,
            match fuel with
            | 0 => λ _, OutOfFuel
            | S fuel' => cancel fuel' child false err0 cause1
            end) ;;;
          modify c (set_children None) ;;;
          if removeFromParent then removeChild fuel (Context_ r) c else ret tt
      end
  end.

(** [func propagateCancel(parent Context, child canceler)] *)
Definition propagateCancel (fuel : nat) (parent : Context) (child : loc) : M unit :=
  let* d := Done parent in
  match d with
  | None => ret tt
  | Some d =>
      let* fired := read (λ st, Ok (is_closed st d)) in
      if (fired : bool) then
        let* e := read (Err parent) in
        let* c := read (Cause fuel parent) in
        cancel fuel child false e c
      else ret tt
  end.

(** [func newCancelCtx(parent Context) *cancelCtx] *)
Definition newCancelCtx (parent : Context) : M loc :=
  alloc {| Context_ := parent; done := None; children := None;
           err := None; cause := None |}.

(** [func withCancel(parent Context) *cancelCtx]; the argument is [None]
    for a nil interface. *)
Definition withCancel (fuel : nat) (parent : option Context) : M loc :=
  match parent with
  | None => panic "cannnot create context from nil parent"
  | Some parent =>
      let* c := newCancelCtx parent in
      propagateCancel fuel parent c ;;;
      ret c
  end.

(** [type CancelFunc func()] as built by [WithCancel]. *)
Definition CancelFunc := nat → M unit.

(** [func WithCancel(parent Context) (ctx Context, cancel CancelFunc)] *)
Definition WithCancel (fuel : nat) (parent : option Context) : M (Context * CancelFunc) :=
  let* c := withCancel fuel parent in
  ret (cancelCtxP c, λ fuel', cancel fuel' c true (Some Canceled) None).

(** [func WithValue(parent Context, key, val any) Context] *)
Definition WithValue (parent : option Context) (key val : any) : outcome Context :=
  match parent with
  | None => Panic "cannot create context from nil parent"
  | Some parent =>
      if bool_decide (key = ANil) then Panic "key is nil"
      else if negb (comparable key) then Panic "key is not comparable"
      else Ok (valueCtxP parent key val)
  end.

Definition Background : Context := emptyCtxP background.
Definition TODO : Context := emptyCtxP todo.

(** * Specification vocabulary *)

(** ** The shape of a chain *)

(** The first node below the [valueCtx] layers of [c]: the receiver of every
    method that [valueCtx] inherits. *)
Fixpoint nearest (c : Context) : Context :=
  match c with
  | valueCtxP parent _ _ => nearest parent
  | _ => c
  end.

(** The number of [valueCtx] layers above [nearest c]. *)
Fixpoint vdepth (c : Context) : nat :=
  match c with
  | valueCtxP parent _ _ => S (vdepth parent)
  | _ => 0
  end.

(** No [valueCtx] layer above [nearest c] is keyed by [&cancelCtxKey]: the
    variable is not exported, so no caller of [WithValue] can name it. *)
Fixpoint sentinel_free (c : Context) : Prop :=
  match c with
  | valueCtxP parent k _ => k ≠ ACancelCtxKey ∧ sentinel_free parent
  | _ => True
  end.

(** [chain_to_empty st c n]: the parent chain of [c] reaches an [emptyCtx]
    after [n] nodes, every [cancelCtx] on it is in the store, and every
    [valueCtx] on it has a comparable key, as [WithValue] demands. *)
Inductive chain_to_empty (st : State) : Context → nat → Prop :=
| chain_empty e : chain_to_empty st (emptyCtxP e) 0
| chain_value parent k v n :
    comparable k = true →
    chain_to_empty st parent n →
    chain_to_empty st (valueCtxP parent k v) (S n)
| chain_cancel l r n :
    heap st !! l = Some r →
    chain_to_empty st (Context_ r) n →
    chain_to_empty st (cancelCtxP l) (S n).

(** [holds_key st c key]: some node of the chain of [c] answers to [key]:
    a [valueCtx] that stores it, or a [cancelCtx] for [&cancelCtxKey]. *)
Inductive holds_key (st : State) : Context → any → Prop :=
| holds_here parent k v : holds_key st (valueCtxP parent k v) k
| holds_above parent k v key :
    holds_key st parent key → holds_key st (valueCtxP parent k v) key
| holds_cancel l : holds_key st (cancelCtxP l) ACancelCtxKey
| holds_above_cancel l r key :
    heap st !! l = Some r → holds_key st (Context_ r) key →
    holds_key st (cancelCtxP l) key.

(** An outcome that is a result or a panic, reached with some fuel. *)
Definition Deadline_is (c : Context) (st : State) (o : outcome (Z * bool)) : Prop :=
  o ≠ OutOfFuel ∧ ∃ fuel, Deadline fuel c st = o.

(** The parent chain of a node as [removeChild] needs it: value layers that
    do not hold the sentinel, fuel to walk them, and below them an
    EmptyScope or a CancelScope of the store. *)
Definition parent_ready (fuel : nat) (parent : Context) (st : State) : Prop :=
  sentinel_free parent ∧ vdepth parent ≤ fuel ∧
  match nearest parent with
  | emptyCtxP _ => True
  | cancelCtxP p => is_Some (heap st !! p)
  | _ => False
  end.

(** ** Relations between an earlier and a later store *)

(** [steps_to st st'] relates a store to a later one when no node was
    allocated or lost, every node kept its parent, a published done
    channel stayed the same channel, a recorded error kept both error and
    cause, and no closed channel was reopened. *)

Definition node_kept (r r' : cancelCtx) : Prop :=
  Context_ r' = Context_ r ∧
  (∀ d, done r = Some d → done r' = Some d) ∧
  (∀ e, err r = Some e → err r' = Some e ∧ cause r' = cause r).

Record steps_to (st st' : State) : Prop := {
  st_dom : ∀ l, heap st !! l = None → heap st' !! l = None;
  st_node : ∀ l r, heap st !! l = Some r →
            ∃ r', heap st' !! l = Some r' ∧ node_kept r r';
  st_closed : ∀ d, is_closed st d = true → is_closed st' d = true;
}.

(** [quiet st st']: between the two stores no node was allocated or lost,
    no error or cause changed, and no children map came into being. *)
Record quiet (st st' : State) : Prop := {
  q_dom : ∀ l, heap st !! l = None → heap st' !! l = None;
  q_node : ∀ l r, heap st !! l = Some r →
           ∃ r', heap st' !! l = Some r' ∧ err r' = err r ∧ cause r' = cause r ∧
                 (children r = None → children r' = None);
}.

(** [only_done st st']: every node of [st] is in [st'] with the same
    parent, error, cause and children map, and a published done channel is
    still the same channel; [st'] may hold more nodes. *)
Definition only_done (st st' : State) : Prop :=
  ∀ l r, heap st !! l = Some r →
    ∃ r', heap st' !! l = Some r' ∧ Context_ r' = Context_ r ∧
          err r' = err r ∧ cause r' = cause r ∧ children r' = children r ∧
          (∀ d, done r = Some d → done r' = Some d).

(** [heap_grows st st']: [st'] has every node of [st] unchanged, and the
    same channels. *)
Definition heap_grows (st st' : State) : Prop :=
  (∀ l r, heap st !! l = Some r → heap st' !! l = Some r) ∧ chans st' = chans st.

(** ** The two halves of [cancel] *)

(** The record of a node once it has stored its reason and its signal. *)
Definition fired_record (r : cancelCtx) (e : error) (cause0 : option error) : cancelCtx :=
  {| Context_ := Context_ r;
     done := Some (default closedchan (done r));
     children := children r;
     err := Some e;
     cause := Some (default e cause0) |}.

(** The store right after a not yet canceled node has recorded its reason
    and fired its done signal. *)
Definition fired_state (st : State) (c : loc) (r : cancelCtx) (e : error)
    (cause0 : option error) : State :=
  {| heap := <[c := fired_record r e cause0]> (heap st);
     chans := match done r with
              | Some (mkchan n) => <[n := true]> (chans st)
              | _ => chans st
              end |}.

(** The rest of [cancel] after the done signal has fired. *)
Definition cancel_rest (fuel : nat) (c : loc) (rm : bool) (r : cancelCtx)
    (e : error) (cause0 : option error) : M unit :=
  forEach (elements (default ∅ (children r))) (λ child,
    match fuel with
    | 0 => λ _, OutOfFuel
    | S fuel' => cancel fuel' child false (Some e) (Some (default e cause0))
    end) ;;;
  modify c (set_children None) ;;;
  if rm then removeChild fuel (Context_ r) c else ret tt.

(** [cancel_ready fuel c rm st]: the node is in the store and, when it is
    not yet canceled, its published signal is still open, it has no
    children and, to leave its parent, the parent chain is ready. *)
Definition cancel_ready (fuel : nat) (c : loc) (rm : bool) (st : State) : Prop :=
  ∃ r, heap st !! c = Some r ∧
       (err r = None →
        (∀ d, done r = Some d → is_closed st d = false) ∧
        children r = None ∧
        (rm = true → parent_ready fuel (Context_ r) st)).

(** The store [withCancel] leaves behind when the parent's signal has fired:
    the old store plus the new node, which holds the parent's error and
    cause, the pre-fired signal and no children. *)
Definition born_canceled (st : State) (parent : Context) (e ca : error) : State :=
  {| heap := <[fresh (dom (heap st)) :=
                {| Context_ := parent; done := Some closedchan;
                   children := None; err := Some e; cause := Some ca |}]>
             (heap st);
     chans := chans st |}.

(** ** Consistent stores *)

(** No node of the store has a children map. *)
Definition no_children (st : State) : Prop :=
  ∀ l r, heap st !! l = Some r → children r = None.

(** What holds of every store the package builds from the empty one: no
    children map exists; a node whose signal has fired has an error; a node
    with an error has a cause and a fired signal; the channels made for
    nodes are known to the store, and no two nodes publish the same one. *)
Record consistent (st : State) : Prop := {
  cs_children : no_children st;
  cs_fired : ∀ l r d, heap st !! l = Some r → done r = Some d →
             is_closed st d = true → is_Some (err r);
  cs_err : ∀ l r, heap st !! l = Some r → is_Some (err r) →
           is_Some (cause r) ∧ ∃ d, done r = Some d ∧ is_closed st d = true;
  cs_alloc : ∀ l r n, heap st !! l = Some r → done r = Some (mkchan n) →
             is_Some (chans st !! n);
  cs_own : ∀ l l' r r' n, heap st !! l = Some r → heap st !! l' = Some r' →
           done r = Some (mkchan n) → done r' = Some (mkchan n) → l = l';
}.

(** The stores the package builds: from the empty store by [withCancel],
    [cancel] and [Done], with any arguments, as long as they return. *)
Inductive reachable : State → Prop :=
| reach_empty : reachable empty_state
| reach_withCancel fuel parent st c st' :
    reachable st → withCancel fuel parent st = Ok (c, st') → reachable st'
| reach_cancel fuel c rm err0 cause0 st st' :
    reachable st → cancel fuel c rm err0 cause0 st = Ok (tt, st') → reachable st'
| reach_Done G st d st' :
    reachable st → Done G st = Ok (d, st') → reachable st'.

(** [runs_to st st']: [st'] is reached from [st] by calls of [withCancel],
    [cancel] and [Done], with any arguments, that return. *)
Inductive runs_to (st : State) : State → Prop :=
| runs_refl : runs_to st st
| runs_withCancel fuel parent st1 c st2 :
    runs_to st st1 → withCancel fuel parent st1 = Ok (c, st2) → runs_to st st2
| runs_cancel fuel c rm err0 cause0 st1 st2 :
    runs_to st st1 → cancel fuel c rm err0 cause0 st1 = Ok (tt, st2) →
    runs_to st st2
| runs_Done G st1 d st2 :
    runs_to st st1 → Done G st1 = Ok (d, st2) → runs_to st st2.

(** ** Keys and [==] *)

(** A slice somewhere inside the value: the only way [==] can panic. *)
Fixpoint has_slice (a : any) : bool :=
  match a with
  | ASlice _ => true
  | AArray x => has_slice x
  | _ => false
  end.

(** A key accepted by [WithValue] whose comparison panics, and one like it:
    [[1]any{[]int{1}}] and [[1]any{[]int{2}}]. *)
Definition key_slice1 : any := AArray (ASlice [1%Z]).
Definition key_slice2 : any := AArray (ASlice [2%Z]).

(** ** Stores used as examples *)

(** After [P := withCancel(Background)]. *)
Definition store_live : State :=
  {| heap := {[ 0 := {| Context_ := Background; done := None; children := None;
                        err := None; cause := None |} ]};
     chans := ∅ |}.

(** After [P := withCancel(Background)] and a call of [P]'s cancel function. *)
Definition store_canceled : State :=
  {| heap := {[ 0 := {| Context_ := Background; done := Some closedchan;
                        children := None; err := Some Canceled;
                        cause := Some Canceled |} ]};
     chans := ∅ |}.

(** After [P := withCancel(Background)] and [C := withCancel(P)]: deriving
    [C] has called [P.Done()], which published [P]'s channel. *)
Definition store_parent_child : State :=
  {| heap := <[ 1 := {| Context_ := cancelCtxP 0; done := None; children := None;
                        err := None; cause := None |} ]>
             {[ 0 := {| Context_ := Background; done := Some (mkchan 0);
                        children := None; err := None; cause := None |} ]};
     chans := {[ 0 := false ]} |}.

(** The same after a call of [P]'s cancel function. *)
Definition store_parent_canceled : State :=
  {| heap := <[ 1 := {| Context_ := cancelCtxP 0; done := None; children := None;
                        err := None; cause := None |} ]>
             {[ 0 := {| Context_ := Background; done := Some (mkchan 0);
                        children := None; err := Some Canceled;
                        cause := Some Canceled |} ]};
     chans := {[ 0 := true ]} |}.

(** [G := WithValue(P, "a", 1)] *)
Definition scope_G : Context := valueCtxP (cancelCtxP 0) (AStr "a") (AInt 1).

(** ** The fan-out of [cancel] *)

(** [cascade_reach st c d]: [d] is [c] or is reached from [c] through the
    children maps of nodes that hold no error in [st]. *)
Inductive cascade_reach (st : State) (c : loc) : loc → Prop :=
| casc_self : cascade_reach st c c
| casc_child x rx s ch :
    cascade_reach st c x → heap st !! x = Some rx → err rx = None →
    children rx = Some s → ch ∈ s → cascade_reach st c ch.

(** [cascade_rel e ca st st']: what a run of [cancel] with error [e] and
    cause [ca] that does not leave its parent makes of a store.  It is a
    step of the store; a node whose error is what it was is the record it
    was; a node that gained an error gained [e] with cause [ca], has no
    children map any more, and has all the children it had canceled too. *)
Record cascade_rel (e ca : error) (st st' : State) : Prop := {
  cr_steps : steps_to st st';
  cr_same : ∀ l r r', heap st !! l = Some r → heap st' !! l = Some r' →
            err r' = err r → r' = r;
  cr_new : ∀ l r r', heap st !! l = Some r → heap st' !! l = Some r' →
           err r = None → is_Some (err r') →
           err r' = Some e ∧ cause r' = Some ca ∧ children r' = None ∧
           ∀ ch, ch ∈ default ∅ (children r) →
                 ∃ rch, heap st' !! ch = Some rch ∧ is_Some (err rch);
}.

(** A store as registration would leave it: [P] at 0 with child [C] at 1,
    which has child [D] at 2; nobody is canceled. *)
Definition store_family : State :=
  {| heap := <[ 2 := {| Context_ := cancelCtxP 1; done := None; children := None;
                        err := None; cause := None |} ]>
            (<[ 1 := {| Context_ := cancelCtxP 0; done := None;
                        children := Some {[ 2 ]}; err := None; cause := None |} ]>
             {[ 0 := {| Context_ := Background; done := None;
                        children := Some {[ 1 ]}; err := None; cause := None |} ]});
     chans := ∅ |}.

(** ** Stores built through the exported functions *)

(** [api_parent st c]: a context made of this package's nodes alone, as a
    caller outside the package can build one: value layers, none keyed by
    the unexported sentinel, over an EmptyScope or over a CancelScope of the
    store.  A [Context] implemented outside the package is not one, nor are
    value layers over it. *)
Definition api_parent (st : State) (c : Context) : Prop :=
  sentinel_free c ∧
  match nearest c with
  | emptyCtxP _ => True
  | cancelCtxP p => is_Some (heap st !! p)
  | _ => False
  end.

(** The stores built from the empty one by [WithCancel] on such parents
    only, by calls of the cancel functions it returned, and by [Done] on any
    context.  A store on which [WithCancel] was called with a parent
    implemented outside the package is not among them. *)
Inductive api_reachable : State → Prop :=
| api_empty : api_reachable empty_state
| api_WithCancel fuel parent st res st' :
    api_reachable st → api_parent st parent →
    WithCancel fuel (Some parent) st = Ok (res, st') → api_reachable st'
| api_CancelFunc fuel c st st' :
    api_reachable st →
    cancel fuel c true (Some Canceled) None st = Ok (tt, st') → api_reachable st'
| api_Done G st d st' :
    api_reachable st → Done G st = Ok (d, st') → api_reachable st'.

(** On such a store the only error is [Canceled], the cause of a node is its
    error, and the parent of every node is a context of the store. *)
Record api_inv (st : State) : Prop := {
  ai_err : ∀ l r, heap st !! l = Some r →
           (err r = None ∨ err r = Some Canceled) ∧ cause r = err r;
  ai_parent : ∀ l r, heap st !! l = Some r → api_parent st (Context_ r);
}.

(** * Lemmas *)

(** ** Reasoning about outcomes *)

Lemma bind_Ok {A B} (m : M A) (k : A → M B) st b st' :
  bind m k st = Ok (b, st') →
  ∃ a st1, m st = Ok (a, st1) ∧ k a st1 = Ok (b, st').
Proof.
  unfold bind. destruct (m st) as [[a st1]| |]; [eauto | discriminate..].
Qed.

Lemma read_Ok {A} (f : State → outcome A) st a st' :
  read f st = Ok (a, st') → f st = Ok a ∧ st' = st.
Proof.
  unfold read. destruct (f st); [|discriminate..]. by intros [= -> ->].
Qed.

Lemma deref_Ok l st r st' :
  deref l st = Ok (r, st') → heap st !! l = Some r ∧ st' = st.
Proof.
  unfold deref. destruct (heap st !! l); [|discriminate]. by intros [= -> ->].
Qed.

Lemma ret_Ok {A} (a b : A) st st' : ret a st = Ok (b, st') → b = a ∧ st' = st.
Proof. by intros [= -> ->]. Qed.

Ltac inv_M :=
  repeat match goal with
  | H : bind _ _ _ = Ok _ |- _ =>
      let a := fresh "a" in let s := fresh "st" in
      let H1 := fresh "Hm" in let H2 := fresh "Hk" in
      apply bind_Ok in H as (a & s & H1 & H2)
  | H : read _ _ = Ok _ |- _ =>
      let H1 := fresh "Hr" in apply read_Ok in H as [H1 ->]
  | H : deref _ _ = Ok _ |- _ =>
      let H1 := fresh "Hd" in apply deref_Ok in H as [H1 ->]
  | H : ret _ _ = Ok _ |- _ =>
      let H1 := fresh "Hv" in let H2 := fresh "Hs" in
      apply ret_Ok in H as [H1 H2]; try subst; try (injection H1 as H1; try subst)
  | H : panic _ _ = Ok _ |- _ => discriminate H
  end.

(** ** The step relation *)

Lemma node_kept_refl r : node_kept r r.
Proof. by repeat split. Qed.

Lemma node_kept_trans r1 r2 r3 :
  node_kept r1 r2 → node_kept r2 r3 → node_kept r1 r3.
Proof.
  intros (HC1 & Hd1 & He1) (HC2 & Hd2 & He2). split_and!.
  - congruence.
  - auto.
  - intros e He. destruct (He1 _ He) as [H1 Hc]. destruct (He2 _ H1).
    split; congruence.
Qed.

Lemma steps_refl st : steps_to st st.
Proof. split; eauto using node_kept_refl. Qed.

Lemma steps_trans st1 st2 st3 :
  steps_to st1 st2 → steps_to st2 st3 → steps_to st1 st3.
Proof.
  intros [D1 N1 C1] [D2 N2 C2]. split; auto.
  intros l r Hl. destruct (N1 _ _ Hl) as (r2 & Hl2 & K1).
  destruct (N2 _ _ Hl2) as (r3 & Hl3 & K2).
  eauto using node_kept_trans.
Qed.

Lemma modify_Ok l f st st' :
  modify l f st = Ok (tt, st') →
  ∃ r, heap st !! l = Some r ∧
       st' = {| heap := <[l := f r]> (heap st); chans := chans st |}.
Proof.
  unfold modify. destruct (heap st !! l) as [r|]; [|discriminate].
  intros [= <-]. eauto.
Qed.

Lemma modify_steps l f st st' :
  modify l f st = Ok (tt, st') →
  (∀ r, heap st !! l = Some r → node_kept r (f r)) →
  steps_to st st'.
Proof.
  intros (r & Hl & ->)%modify_Ok Hf. split; simpl.
  - intros l0 H0. rewrite lookup_insert_ne; [done | congruence].
  - intros l0 r0 H0. destruct (decide (l = l0)) as [->|Hne].
    + rewrite lookup_insert_eq. simplify_eq. eauto.
    + rewrite lookup_insert_ne by done. eauto using node_kept_refl.
  - done.
Qed.

Lemma make_chan_Ok st d st' :
  make_chan st = Ok (d, st') →
  ∃ n, d = mkchan n ∧ chans st !! n = None ∧
       st' = {| heap := heap st; chans := <[n := false]> (chans st) |}.
Proof.
  intros [= <- <-]. eexists; split_and!; [done | | done].
  apply not_elem_of_dom, is_fresh.
Qed.

Lemma make_chan_steps st d st' : make_chan st = Ok (d, st') → steps_to st st'.
Proof.
  intros (n & -> & Hn & ->)%make_chan_Ok. split; simpl; eauto using node_kept_refl.
  intros [|m]; simpl; [done|].
  destruct (decide (n = m)) as [->|Hne].
  - by rewrite Hn.
  - by rewrite lookup_insert_ne.
Qed.

Lemma close_Ok d st st' :
  close d st = Ok (tt, st') →
  ∃ n, d = mkchan n ∧ is_closed st d = false ∧
       st' = {| heap := heap st; chans := <[n := true]> (chans st) |}.
Proof.
  destruct d as [|n]; simpl; [discriminate|].
  destruct (default false (chans st !! n)) eqn:E; [discriminate|].
  intros [= <-]. eauto.
Qed.

Lemma close_steps d st st' : close d st = Ok (tt, st') → steps_to st st'.
Proof.
  intros (n & -> & Hn & ->)%close_Ok. split; simpl; eauto using node_kept_refl.
  intros [|m]; simpl; [done|].
  destruct (decide (n = m)) as [->|Hne].
  - by rewrite lookup_insert_eq.
  - by rewrite lookup_insert_ne.
Qed.

Lemma close_closed d st st' : close d st = Ok (tt, st') → is_closed st' d = true.
Proof.
  intros (n & -> & Hn & ->)%close_Ok. simpl. by rewrite lookup_insert_eq.
Qed.

(** ** [Done] *)

Lemma cancelCtx_Done_published c r d st :
  heap st !! c = Some r → done r = Some d →
  cancelCtx_Done c st = Ok (Some d, st).
Proof.
  intros Hc Hd. unfold cancelCtx_Done, bind, deref. rewrite Hc. simpl.
  by rewrite Hd.
Qed.

Lemma cancelCtx_Done_fresh c r st :
  heap st !! c = Some r → done r = None →
  let n := fresh (dom (chans st)) in
  cancelCtx_Done c st =
    Ok (Some (mkchan n),
        {| heap := <[c := set_done (Some (mkchan n)) r]> (heap st);
           chans := <[n := false]> (chans st) |}).
Proof.
  intros Hc Hd. unfold cancelCtx_Done, bind, deref. rewrite Hc. simpl.
  rewrite Hd, Hc. simpl. rewrite Hd. unfold bind, make_chan, modify. simpl.
  by rewrite Hc.
Qed.

Lemma cancelCtx_Done_Ok c st d st' :
  cancelCtx_Done c st = Ok (d, st') →
  ∃ r, heap st !! c = Some r ∧
    ((done r = d ∧ is_Some d ∧ st' = st) ∨
     (done r = None ∧ ∃ n, d = Some (mkchan n) ∧ chans st !! n = None ∧
        st' = {| heap := <[c := set_done (Some (mkchan n)) r]> (heap st);
                 chans := <[n := false]> (chans st) |})).
Proof.
  intros H. destruct (heap st !! c) as [r|] eqn:Hc.
  - exists r. split; [done|]. destruct (done r) as [d0|] eqn:Hd.
    + rewrite (cancelCtx_Done_published _ _ _ _ Hc Hd) in H.
      injection H as <- <-. left. eauto.
    + rewrite (cancelCtx_Done_fresh _ _ _ Hc Hd) in H.
      injection H as <- <-. right. split; [done|]. eexists; split_and!; try done.
      apply not_elem_of_dom, is_fresh.
  - unfold cancelCtx_Done, bind, deref in H. by rewrite Hc in H.
Qed.

Lemma cancelCtx_Done_steps c st d st' :
  cancelCtx_Done c st = Ok (d, st') → steps_to st st'.
Proof.
  intros (r & Hc & [(_ & _ & ->)|(Hd & n & -> & Hn & ->)])%cancelCtx_Done_Ok.
  - apply steps_refl.
  - split; simpl.
    + intros l0 H0. rewrite lookup_insert_ne; [done | congruence].
    + intros l0 r0 H0. destruct (decide (c = l0)) as [->|Hne].
      * rewrite lookup_insert_eq. simplify_eq. eexists; split; [done|].
        repeat split; simpl; auto. congruence.
      * rewrite lookup_insert_ne by done. eauto using node_kept_refl.
    + intros [|m]; simpl; [done|].
      destruct (decide (n = m)) as [->|Hne].
      * by rewrite Hn.
      * by rewrite lookup_insert_ne.
Qed.

Lemma Done_steps c st d st' : Done c st = Ok (d, st') → steps_to st st'.
Proof.
  induction c as [e|p IH k v|l|x]; simpl; intros H.
  - apply ret_Ok in H as [_ ->]. apply steps_refl.
  - auto.
  - eauto using cancelCtx_Done_steps.
  - apply ret_Ok in H as [_ ->]. apply steps_refl.
Qed.

Lemma parentCancelCtx_steps fuel parent st p st' :
  parentCancelCtx fuel parent st = Ok (p, st') → steps_to st st'.
Proof.
  unfold parentCancelCtx. intros H. inv_M.
  apply Done_steps in Hm. case_bool_decide; inv_M; [done|].
  destruct a0; inv_M; try done.
  case_bool_decide; inv_M; done.
Qed.

Lemma removeChild_steps fuel parent child st st' :
  removeChild fuel parent child st = Ok (tt, st') → steps_to st st'.
Proof.
  unfold removeChild. intros H. inv_M.
  apply parentCancelCtx_steps in Hm. destruct a as [p|]; inv_M; [|done].
  destruct (children a) as [s|]; inv_M; [|done].
  eapply steps_trans; [done|]. eapply modify_steps; [done|].
  intros r _. by repeat split.
Qed.

Lemma forEach_steps {A} (f : A → M unit) xs :
  (∀ x st st', f x st = Ok (tt, st') → steps_to st st') →
  ∀ st st', forEach xs f st = Ok (tt, st') → steps_to st st'.
Proof.
  intros Hf. induction xs as [|x xs IH]; simpl; intros st st' H.
  - apply ret_Ok in H as [_ ->]. apply steps_refl.
  - inv_M. destruct a. eauto using steps_trans.
Qed.

(** ** [cancel] *)

Lemma cancel_unfold fuel c rm err0 cause0 :
  cancel fuel c rm err0 cause0 =
  match err0 with
  | None => panic missing_cancel_error
  | Some _ =>
      let cause1 := match cause0 with None => err0 | Some _ => cause0 end in
      let* r := deref c in
      match err r with
      | Some _ => ret tt
      | None =>
          modify c (set_err err0) ;;;
          modify c (set_cause cause1) ;;;
          match done r with
          | None => modify c (set_done (Some closedchan))
          | Some d => close d
          end ;;;
          forEach (elements (default ∅ (children r))) (λ child,
            match fuel with
            | 0 => λ _, OutOfFuel
            | S fuel' => cancel fuel' child false err0 cause1
            end) ;;;
          modify c (set_children None) ;;;
          if rm then removeChild fuel (Context_ r) c else ret tt
      end
  end.
Proof. by destruct fuel. Qed.

Lemma cancel_fire fuel c rm e cause0 r st :
  heap st !! c = Some r → err r = None →
  cancel fuel c rm (Some e) cause0 st =
    match done r with
    | Some d =>
        if is_closed st d then Panic "close of closed channel"
        else cancel_rest fuel c rm r e cause0 (fired_state st c r e cause0)
    | None => cancel_rest fuel c rm r e cause0 (fired_state st c r e cause0)
    end.
Proof.
  intros Hc He. rewrite cancel_unfold. unfold bind at 1, deref. rewrite Hc, He.
  unfold bind at 1, modify at 1. rewrite Hc.
  unfold bind at 1, modify at 1. simpl. rewrite lookup_insert_eq, insert_insert_eq.
  assert (match cause0 with None => Some e | Some _ => cause0 end
          = Some (default e cause0)) as -> by by destruct cause0.
  unfold bind at 1. destruct (done r) as [[|n]|] eqn:Hd; simpl.
  - done.
  - destruct (default false (chans st !! n)); [done|].
    unfold fired_state, fired_record, set_cause, set_err. simpl. by rewrite Hd.
  - unfold modify. simpl. rewrite lookup_insert_eq, insert_insert_eq.
    unfold fired_state, fired_record, set_cause, set_err, set_done. simpl.
    by rewrite Hd.
Qed.

Lemma fired_state_steps st c r e cause0 :
  heap st !! c = Some r → err r = None →
  steps_to st (fired_state st c r e cause0).
Proof.
  intros Hc He. split; simpl.
  - intros l0 H0. rewrite lookup_insert_ne; [done | congruence].
  - intros l0 r0 H0. destruct (decide (c = l0)) as [->|Hne].
    + rewrite lookup_insert_eq. simplify_eq. eexists; split; [done|].
      repeat split; simpl; try congruence. by intros d ->.
    + rewrite lookup_insert_ne by done. eauto using node_kept_refl.
  - intros [|m]; simpl; [done|]. destruct (done r) as [[|n]|]; try done.
    destruct (decide (n = m)) as [->|Hne].
    + by rewrite lookup_insert_eq.
    + by rewrite lookup_insert_ne.
Qed.

Lemma fired_state_closed st c r e cause0 :
  is_closed (fired_state st c r e cause0) (default closedchan (done r)) = true.
Proof.
  destruct (done r) as [[|n]|] eqn:Hd; simpl; try done.
  by rewrite Hd, lookup_insert_eq.
Qed.

Lemma cancel_steps fuel : ∀ c rm err0 cause0 st st',
  cancel fuel c rm err0 cause0 st = Ok (tt, st') → steps_to st st'.
Proof.
  induction fuel as [fuel IH] using lt_wf_ind.
  intros c rm [e|] cause0 st st' H; [|by destruct fuel].
  destruct (heap st !! c) as [r|] eqn:Hc; cycle 1.
  { rewrite cancel_unfold in H. unfold bind, deref in H. by rewrite Hc in H. }
  destruct (err r) as [e0|] eqn:He.
  { rewrite cancel_unfold in H. unfold bind, deref in H. rewrite Hc, He in H.
    injection H as <-. apply steps_refl. }
  rewrite (cancel_fire _ _ _ _ _ _ _ Hc He) in H.
  assert (cancel_rest fuel c rm r e cause0 (fired_state st c r e cause0)
          = Ok (tt, st')) as Hrest.
  { destruct (done r) as [d|]; [|done]. by destruct (is_closed st d). }
  clear H. eapply steps_trans; [by apply fired_state_steps|].
  unfold cancel_rest in Hrest. inv_M. destruct a, a0.
  eapply steps_trans.
  { eapply forEach_steps; [|done]. intros child s s' Hch.
    destruct fuel as [|fuel']; [done|]. eapply IH; [|done]. lia. }
  eapply steps_trans.
  { eapply modify_steps; [done|]. intros ? _. by repeat split. }
  destruct rm; [by eapply removeChild_steps|]. inv_M. apply steps_refl.
Qed.

Lemma cancel_already fuel c rm e cause0 st r :
  heap st !! c = Some r → is_Some (err r) →
  cancel fuel c rm (Some e) cause0 st = Ok (tt, st).
Proof.
  intros Hc [e0 He]. rewrite cancel_unfold. unfold bind, deref.
  by rewrite Hc, He.
Qed.

Lemma cancel_rest_steps fuel c rm r e cause0 st2 st' :
  cancel_rest fuel c rm r e cause0 st2 = Ok (tt, st') → steps_to st2 st'.
Proof.
  unfold cancel_rest. intros H. inv_M. destruct a, a0.
  eapply steps_trans.
  { eapply forEach_steps; [|done]. intros child s s' Hch.
    destruct fuel; [done|]. by eapply cancel_steps. }
  eapply steps_trans.
  { eapply modify_steps; [done|]. intros ? _. by repeat split. }
  destruct rm; [by eapply removeChild_steps|]. inv_M. apply steps_refl.
Qed.

(** A [cancel] that returns on a node without an error went through the
    fired store, and the channel it found published was still open. *)
Lemma cancel_fired fuel c rm e cause0 r st st' :
  heap st !! c = Some r → err r = None →
  cancel fuel c rm (Some e) cause0 st = Ok (tt, st') →
  steps_to (fired_state st c r e cause0) st' ∧
  (∀ d, done r = Some d → is_closed st d = false).
Proof.
  intros Hc He H. rewrite (cancel_fire _ _ _ _ _ _ _ Hc He) in H.
  destruct (done r) as [d|].
  - destruct (is_closed st d) eqn:Hd; [done|]. split.
    + by eapply cancel_rest_steps.
    + by intros ? [= <-].
  - split; [by eapply cancel_rest_steps | done].
Qed.

Lemma fired_state_lookup st c r e cause0 :
  heap (fired_state st c r e cause0) !! c = Some (fired_record r e cause0).
Proof. simpl. by rewrite lookup_insert_eq. Qed.

(** ** Lookups do not depend on cancellation state *)

Lemma value_steps st st' :
  steps_to st st' →
  ∀ fuel c key, value fuel c key st' = value fuel c key st.
Proof.
  intros [D N _]. induction fuel as [|fuel IH]; intros c key; [done|].
  destruct c as [e|p k v|l|x]; simpl; try done.
  - destruct (any_eq key k) as [[]|]; auto.
  - destruct (any_eq key ACancelCtxKey) as [[]|]; try done.
    destruct (heap st !! l) as [r|] eqn:Hl.
    + destruct (N _ _ Hl) as (r' & -> & -> & _). auto.
    + by rewrite (D _ Hl).
Qed.

Lemma Value_steps st st' :
  steps_to st st' →
  ∀ fuel c key, Value fuel c key st' = Value fuel c key st.
Proof.
  intros Hs fuel [e|p k v|l|x] key; simpl; try done.
  - unfold valueCtx_Value. by rewrite (value_steps _ _ Hs).
  - unfold cancelCtx_Value. destruct (any_eq key ACancelCtxKey) as [[]|]; try done.
    destruct (heap st !! l) as [r|] eqn:Hl.
    + destruct (st_node _ _ Hs _ _ Hl) as (r' & -> & -> & _).
      by apply value_steps.
    + by rewrite (st_dom _ _ Hs _ Hl).
Qed.

(** ** Running a sequence forward *)

Lemma bind_eq {A B} (m : M A) (k : A → M B) st a st1 :
  m st = Ok (a, st1) → bind m k st = k a st1.
Proof. unfold bind. by intros ->. Qed.

Lemma read_eq {A} (f : State → outcome A) st a :
  f st = Ok a → read f st = Ok (a, st).
Proof. unfold read. by intros ->. Qed.

(** ** Methods inherited through [valueCtx] layers *)

Lemma Done_nearest c st : Done c st = Done (nearest c) st.
Proof. induction c; simpl; auto. Qed.

Lemma Err_nearest c st : Err c st = Err (nearest c) st.
Proof. induction c; simpl; auto. Qed.

Lemma nearest_not_value c p k v : nearest c ≠ valueCtxP p k v.
Proof. induction c; simpl; auto; discriminate. Qed.

(** A fired signal was published before the call that returned it. *)
Lemma Done_fired c st d st1 :
  Done c st = Ok (Some d, st1) → is_closed st1 d = true →
  st1 = st ∧
  match nearest c with
  | cancelCtxP p => ∃ r, heap st !! p = Some r ∧ done r = Some d
  | extCtxP x => extDone x = Some d
  | _ => False
  end.
Proof.
  rewrite Done_nearest. pose proof (nearest_not_value c) as Hnv.
  destruct (nearest c) as [e|p k v|l|x]; simpl; intros H Hcl.
  - by apply ret_Ok in H as [? _].
  - by destruct (Hnv p k v).
  - apply cancelCtx_Done_Ok in H
      as (r & Hl & [(Hd & _ & ->)|(_ & n & Heq & Hn & ->)]); [eauto|].
    injection Heq as ->. simpl in Hcl. by rewrite lookup_insert_eq in Hcl.
  - apply ret_Ok in H as [? ->]. done.
Qed.

(** ** Stores that only gained nodes: lemmas *)

Lemma value_grows st st' fuel c key v :
  heap_grows st st' → value fuel c key st = Ok v → value fuel c key st' = Ok v.
Proof.
  intros [Hg _]. revert c. induction fuel as [|fuel IH]; intros c; [done|].
  destruct c as [e|p k w|l|x]; simpl; try done.
  - destruct (any_eq key k) as [[]|]; auto.
  - destruct (any_eq key ACancelCtxKey) as [[]|]; try done.
    destruct (heap st !! l) as [r|] eqn:Hl; [|done].
    rewrite (Hg _ _ Hl). auto.
Qed.

Lemma Value_grows st st' fuel c key v :
  heap_grows st st' → Value fuel c key st = Ok v → Value fuel c key st' = Ok v.
Proof.
  intros Hg. destruct c as [e|p k w|l|x]; simpl; try done.
  - unfold valueCtx_Value. destruct (any_eq k key) as [[]|]; try done.
    by apply value_grows.
  - unfold cancelCtx_Value. destruct (any_eq key ACancelCtxKey) as [[]|]; try done.
    destruct (heap st !! l) as [r|] eqn:Hl; [|done].
    rewrite (proj1 Hg _ _ Hl). by apply value_grows.
Qed.

Lemma Cause_grows st st' fuel c ca :
  heap_grows st st' → Cause fuel c st = Ok ca → Cause fuel c st' = Ok ca.
Proof.
  intros Hg. unfold Cause.
  destruct (Value fuel c ACancelCtxKey st) as [v| |] eqn:HV; simpl; [|done..].
  rewrite (Value_grows _ _ _ _ _ _ Hg HV). simpl.
  destruct v; try done.
  destruct (heap st !! l) as [r|] eqn:Hl; [|done].
  by rewrite (proj1 Hg _ _ Hl).
Qed.

Lemma Err_grows st st' c e :
  heap_grows st st' → Err c st = Ok e → Err c st' = Ok e.
Proof.
  intros [Hg _]. induction c as [?|p IH k v|l|x]; simpl; auto.
  unfold cancelCtx_Err. destruct (heap st !! l) as [r|] eqn:Hl; [|done].
  by rewrite (Hg _ _ Hl).
Qed.

Lemma Done_published_grows st st' c d :
  heap_grows st st' → Done c st = Ok (Some d, st) → is_closed st d = true →
  Done c st' = Ok (Some d, st').
Proof.
  intros [Hg _] H Hcl. destruct (Done_fired _ _ _ _ H Hcl) as [_ Hn].
  rewrite Done_nearest. destruct (nearest c) as [e|p k v|l|x]; try done.
  - destruct Hn as (r & Hl & Hd). simpl.
    eapply cancelCtx_Done_published; eauto.
  - simpl. by rewrite Hn.
Qed.

Lemma alloc_grows st c :
  let l := fresh (dom (heap st)) in
  heap st !! l = None ∧
  heap_grows st {| heap := <[l := c]> (heap st); chans := chans st |}.
Proof.
  intros l. assert (heap st !! l = None) as Hl.
  { apply not_elem_of_dom, is_fresh. }
  split; [done|]. split; [|done]. simpl. intros l0 r0 H0.
  rewrite lookup_insert_ne; [done | congruence].
Qed.

(** ** The walk of [value] *)

Lemma any_eq_sentinel_l k :
  any_eq ACancelCtxKey k = Some (bool_decide (ACancelCtxKey = k)).
Proof. by destruct k. Qed.

Lemma any_eq_sentinel_r k :
  any_eq k ACancelCtxKey = Some (bool_decide (k = ACancelCtxKey)).
Proof. by destruct k. Qed.

Lemma float64_eq_sym f g : float64_eq f g = float64_eq g f.
Proof. destruct f, g; simpl; try done. apply bool_decide_ext. split; congruence. Qed.

Lemma any_eq_sym a b : any_eq a b = any_eq b a.
Proof.
  revert b. induction a as [| | | | | | |a IH]; intros b; destruct b; simpl;
    try done; try (f_equal; apply bool_decide_ext; split; congruence);
    try (f_equal; apply float64_eq_sym); try apply IH.
Qed.

(** [==] answers true only on identical values. *)
Lemma any_eq_true a b : any_eq a b = Some true → a = b.
Proof.
  revert b. induction a as [| | | | | | f |a IH]; intros b; destruct b; simpl;
    try done; try (intros [= H]; by apply bool_decide_eq_true_1 in H).
  - destruct f as [|x], f0 as [|y]; simpl; try done.
    intros [= H]. apply bool_decide_eq_true_1 in H. by subst.
  - intros H. f_equal. by apply IH.
Qed.

(** [==] never panics on a value that holds no slice. *)
Lemma any_eq_no_slice a b : has_slice a = false → any_eq a b ≠ None.
Proof.
  revert b. induction a as [| | | | | | |a IH]; intros b; destruct b; simpl;
    try done. apply IH.
Qed.

(** What the lookup of [&cancelCtxKey] finds below sentinel-free layers. *)
Lemma value_sentinel st c :
  sentinel_free c → ∀ fuel, vdepth c < fuel →
  value fuel c ACancelCtxKey st =
    match nearest c with
    | cancelCtxP l => Ok (ACancelCtx l)
    | extCtxP x => Ok (extValue x ACancelCtxKey)
    | _ => Ok ANil
    end.
Proof.
  induction c as [e|p IH k v|l|x]; simpl; intros Hsf fuel Hfuel.
  - destruct fuel; [lia|done].
  - destruct fuel as [|fuel]; [lia|]. cbn [value]. destruct Hsf as [Hk Hsf].
    rewrite any_eq_sentinel_l, bool_decide_eq_false_2 by done.
    apply IH; [done|lia].
  - destruct fuel; [lia|done].
  - destruct fuel; [lia|done].
Qed.

Lemma Value_sentinel st c :
  sentinel_free c → ∀ fuel, vdepth c ≤ fuel →
  Value fuel c ACancelCtxKey st =
    match nearest c with
    | cancelCtxP l => Ok (ACancelCtx l)
    | extCtxP x => Ok (extValue x ACancelCtxKey)
    | _ => Ok ANil
    end.
Proof.
  destruct c as [e|p k v|l|x]; simpl; intros Hsf fuel Hfuel; try done.
  unfold valueCtx_Value. destruct Hsf as [Hk Hsf].
  rewrite any_eq_sentinel_r, bool_decide_eq_false_2 by done.
  apply value_sentinel; [done|lia].
Qed.

(** A key that no node of a chain to the root answers to is not found. *)
Lemma value_misses st c n key :
  chain_to_empty st c n → ¬ holds_key st c key →
  (∀ k, holds_key st c k → any_eq key k ≠ None) →
  ∀ fuel, n < fuel → value fuel c key st = Ok ANil.
Proof.
  induction 1 as [e|p k v n Hk Hch IH|l r n Hl Hch IH];
    intros Hno Hcmp fuel Hfuel; (destruct fuel as [|fuel]; [lia|]); cbn [value].
  - done.
  - destruct (any_eq key k) as [[]|] eqn:E.
    + apply any_eq_true in E as ->. destruct Hno. constructor.
    + apply IH; [| |lia].
      * intros Hh. apply Hno. by constructor.
      * intros k' Hh. apply Hcmp. by constructor.
    + destruct (Hcmp k); [constructor|done].
  - rewrite any_eq_sentinel_r, bool_decide_eq_false_2.
    + rewrite Hl. apply IH; [| |lia].
      * intros Hh. apply Hno. by eapply holds_above_cancel.
      * intros k' Hh. apply Hcmp. by eapply holds_above_cancel.
    + intros ->. apply Hno. constructor.
Qed.

Lemma Value_misses st c n key :
  chain_to_empty st c n → ¬ holds_key st c key →
  (∀ k, holds_key st c k → any_eq key k ≠ None) →
  ∀ fuel, n ≤ fuel → Value fuel c key st = Ok ANil.
Proof.
  destruct 1 as [e|p k v n Hk Hch|l r n Hl Hch]; intros Hno Hcmp fuel Hfuel;
    cbn [Value].
  - done.
  - unfold valueCtx_Value. rewrite (any_eq_sym k key).
    destruct (any_eq key k) as [[]|] eqn:E.
    + apply any_eq_true in E as ->. destruct Hno. constructor.
    + eapply value_misses; [done| | |lia].
      * intros Hh. apply Hno. by constructor.
      * intros k' Hh. apply Hcmp. by constructor.
    + destruct (Hcmp k); [constructor|done].
  - unfold cancelCtx_Value. rewrite any_eq_sentinel_r, bool_decide_eq_false_2.
    + rewrite Hl. eapply value_misses; [done| | |lia].
      * intros Hh. apply Hno. by eapply holds_above_cancel.
      * intros k' Hh. apply Hcmp. by eapply holds_above_cancel.
    + intros ->. apply Hno. constructor.
Qed.

(** ** Fuel *)

Lemma Deadline_fuel st fuel c o :
  Deadline fuel c st = o → o ≠ OutOfFuel →
  ∀ fuel', fuel ≤ fuel' → Deadline fuel' c st = o.
Proof.
  revert c. induction fuel as [|fuel IH]; intros c H Ho fuel' Hle.
  { simpl in H. congruence. }
  destruct fuel' as [|fuel']; [lia|]. simpl in *.
  destruct c as [e|p k v|l|x]; try done.
  - apply IH; [done..|lia].
  - destruct (heap st !! l); [|done]. apply IH; [done..|lia].
Qed.

Lemma Deadline_is_unique c st o1 o2 :
  Deadline_is c st o1 → Deadline_is c st o2 → o1 = o2.
Proof.
  intros [Ho1 [f1 H1]] [Ho2 [f2 H2]].
  rewrite <- (Deadline_fuel st f1 c o1 H1 Ho1 (f1 `max` f2)) by lia.
  rewrite <- (Deadline_fuel st f2 c o2 H2 Ho2 (f1 `max` f2)) by lia.
  done.
Qed.

(** ** [cancel] returns *)

Lemma parent_ready_steps fuel parent st st' :
  steps_to st st' → parent_ready fuel parent st → parent_ready fuel parent st'.
Proof.
  intros Hs (Hsf & Hfuel & Hn). split_and!; [done..|].
  destruct (nearest parent); try done. destruct Hn as [r Hr].
  destruct (st_node _ _ Hs _ _ Hr) as (r' & -> & _). eauto.
Qed.

Lemma parentCancelCtx_returns fuel parent st :
  parent_ready fuel parent st →
  ∃ p st', parentCancelCtx fuel parent st = Ok (p, st') ∧
           ∀ q, p = Some q → is_Some (heap st' !! q).
Proof.
  intros (Hsf & Hfuel & Hn). unfold parentCancelCtx.
  assert (∀ st1, Value fuel parent ACancelCtxKey st1
                 = match nearest parent with
                   | cancelCtxP l => Ok (ACancelCtx l)
                   | extCtxP x => Ok (extValue x ACancelCtxKey)
                   | _ => Ok ANil
                   end) as HV.
  { intros st1. by apply Value_sentinel. }
  unfold bind at 1. rewrite Done_nearest.
  destruct (nearest parent) as [e|?|p|?] eqn:Hnear; try done.
  - simpl. unfold ret. naive_solver.
  - destruct Hn as [r Hr]. simpl.
    destruct (done r) as [d|] eqn:Hd.
    + rewrite (cancelCtx_Done_published _ _ _ _ Hr Hd).
      destruct (bool_decide _); [unfold ret; naive_solver|].
      unfold bind at 1. rewrite (read_eq _ _ _ (HV st)).
      unfold bind at 1, deref. rewrite Hr.
      rewrite bool_decide_eq_false_2 by (intros ?; congruence).
      unfold ret. eexists _, _. split; [done|]. intros ? [= <-]. eauto.
    + rewrite (cancelCtx_Done_fresh _ _ _ Hr Hd).
      rewrite bool_decide_eq_false_2 by (intros [?|?]; congruence).
      unfold bind at 1. rewrite (read_eq _ _ _ (HV _)).
      unfold bind at 1, deref. simpl. rewrite lookup_insert_eq. simpl.
      rewrite bool_decide_eq_false_2 by (intros ?; congruence).
      unfold ret. eexists _, _. split; [done|]. intros ? [= <-]. simpl.
      rewrite lookup_insert_eq. eauto.
Qed.

Lemma removeChild_returns fuel parent child st :
  parent_ready fuel parent st →
  ∃ st', removeChild fuel parent child st = Ok (tt, st').
Proof.
  intros (p & st1 & Hp & Hq)%parentCancelCtx_returns.
  unfold removeChild. rewrite (bind_eq _ _ _ _ _ Hp).
  destruct p as [q|]; [|unfold ret; eauto].
  destruct (Hq q eq_refl) as [r Hr].
  unfold bind, deref. rewrite Hr.
  destruct (children r); unfold modify, ret; [rewrite Hr|]; eauto.
Qed.

(** A node without children and without an error, whose published signal
    is still open, is canceled by any [cancel] that carries an error; to
    leave its parent it needs the parent chain ready. *)
Lemma cancel_returns fuel c rm e cause0 st r :
  heap st !! c = Some r → err r = None →
  (∀ d, done r = Some d → is_closed st d = false) →
  children r = None →
  (rm = true → parent_ready fuel (Context_ r) st) →
  ∃ st', cancel fuel c rm (Some e) cause0 st = Ok (tt, st').
Proof.
  intros Hc He Hopen Hch Hrm.
  rewrite (cancel_fire _ _ _ _ _ _ _ Hc He).
  assert (∃ st', cancel_rest fuel c rm r e cause0 (fired_state st c r e cause0)
                 = Ok (tt, st')) as Hrest.
  { unfold cancel_rest. rewrite Hch. simpl. rewrite elements_empty. simpl.
    unfold bind at 1, ret. unfold bind at 1, modify.
    rewrite fired_state_lookup.
    destruct rm; [|unfold ret; eauto].
    apply removeChild_returns.
    eapply parent_ready_steps; [|by apply Hrm].
    eapply steps_trans; [by apply fired_state_steps|].
    eapply (modify_steps c (set_children None)).
    - unfold modify. by rewrite fired_state_lookup.
    - intros ? _. by repeat split. }
  destruct (done r) as [d|]; [|done]. by rewrite (Hopen d eq_refl).
Qed.

(** ** No operation of the package registers a child *)

Lemma quiet_refl st : quiet st st.
Proof. split; eauto. Qed.

Lemma quiet_trans st1 st2 st3 : quiet st1 st2 → quiet st2 st3 → quiet st1 st3.
Proof.
  intros [D1 N1] [D2 N2]. split; auto.
  intros l r Hl. destruct (N1 _ _ Hl) as (r2 & Hl2 & E1 & C1 & K1).
  destruct (N2 _ _ Hl2) as (r3 & Hl3 & E2 & C2 & K2).
  exists r3. split_and!; [done|congruence..|auto].
Qed.

Lemma quiet_no_children st st' : quiet st st' → no_children st → no_children st'.
Proof.
  intros [D N] Hno l r' Hl'. destruct (heap st !! l) as [r|] eqn:Hl.
  - destruct (N _ _ Hl) as (r2 & Hl2 & _ & _ & K). simplify_eq. eauto.
  - rewrite (D _ Hl) in Hl'. done.
Qed.

Lemma modify_quiet l f st st' :
  modify l f st = Ok (tt, st') →
  (∀ r, heap st !! l = Some r →
        err (f r) = err r ∧ cause (f r) = cause r ∧
        (children r = None → children (f r) = None)) →
  quiet st st'.
Proof.
  intros (r & Hl & ->)%modify_Ok Hf. split; simpl.
  - intros l0 H0. rewrite lookup_insert_ne; [done | congruence].
  - intros l0 r0 H0. destruct (decide (l = l0)) as [->|Hne].
    + rewrite lookup_insert_eq. simplify_eq. eexists; split; [done|].
      by apply Hf.
    + rewrite lookup_insert_ne by done. eauto.
Qed.

Lemma Done_quiet c st d st' : Done c st = Ok (d, st') → quiet st st'.
Proof.
  rewrite Done_nearest. pose proof (nearest_not_value c) as Hnv.
  destruct (nearest c) as [e|p k v|l|x]; simpl; intros H.
  - apply ret_Ok in H as [_ ->]. apply quiet_refl.
  - by destruct (Hnv p k v).
  - apply cancelCtx_Done_Ok in H
      as (r & Hl & [(_ & _ & ->)|(_ & n & _ & _ & ->)]); [apply quiet_refl|].
    split; simpl.
    + intros l0 H0. rewrite lookup_insert_ne; [done | congruence].
    + intros l0 r0 H0. destruct (decide (l = l0)) as [->|Hne].
      * rewrite lookup_insert_eq. simplify_eq. eexists; split; [done|]. done.
      * rewrite lookup_insert_ne by done. eauto.
  - apply ret_Ok in H as [_ ->]. apply quiet_refl.
Qed.

Lemma parentCancelCtx_quiet fuel parent st p st' :
  parentCancelCtx fuel parent st = Ok (p, st') → quiet st st'.
Proof.
  unfold parentCancelCtx. intros H. inv_M.
  apply Done_quiet in Hm. case_bool_decide; inv_M; [done|].
  destruct a0; inv_M; try done.
  case_bool_decide; inv_M; done.
Qed.

(** On a store without children maps [removeChild] deletes nothing. *)
Lemma removeChild_quiet fuel parent child st st' :
  removeChild fuel parent child st = Ok (tt, st') → quiet st st'.
Proof.
  unfold removeChild. intros H. inv_M.
  apply parentCancelCtx_quiet in Hm. destruct a as [p|]; inv_M; [|done].
  destruct (children a) as [s|] eqn:Hch; inv_M; [|done].
  eapply quiet_trans; [done|]. eapply modify_quiet; [done|].
  intros r Hr. simplify_eq. split_and!; [done..|]. congruence.
Qed.

Lemma empty_state_no_children : no_children empty_state.
Proof. intros l r H. simpl in H. by rewrite lookup_empty in H. Qed.

(** Without children maps a [cancel] reaches no node but its own. *)
Lemma cancel_no_cascade fuel p rm err0 cause0 st st' :
  no_children st →
  cancel fuel p rm err0 cause0 st = Ok (tt, st') →
  no_children st' ∧
  ∀ c r, c ≠ p → heap st !! c = Some r →
         ∃ r', heap st' !! c = Some r' ∧ err r' = err r ∧ cause r' = cause r.
Proof.
  intros Hno H. destruct err0 as [e|]; [|by destruct fuel].
  destruct (heap st !! p) as [r|] eqn:Hp; cycle 1.
  { rewrite cancel_unfold in H. unfold bind, deref in H. by rewrite Hp in H. }
  destruct (err r) as [e0|] eqn:He.
  { rewrite (cancel_already _ _ _ _ _ _ _ Hp) in H by by rewrite He.
    injection H as <-. eauto. }
  rewrite (cancel_fire _ _ _ _ _ _ _ Hp He) in H.
  assert (cancel_rest fuel p rm r e cause0 (fired_state st p r e cause0)
          = Ok (tt, st')) as Hrest.
  { destruct (done r) as [d|]; [|done]. by destruct (is_closed st d). }
  clear H. unfold cancel_rest in Hrest. rewrite (Hno _ _ Hp) in Hrest.
  simpl in Hrest. rewrite elements_empty in Hrest. simpl in Hrest.
  inv_M. repeat match goal with u : unit |- _ => destruct u end.
  assert (quiet (fired_state st p r e cause0) st') as Hq.
  { eapply quiet_trans.
    - eapply modify_quiet; [done|]. by intros.
    - destruct rm; [by eapply removeChild_quiet|]. inv_M. apply quiet_refl. }
  split.
  - eapply quiet_no_children; [done|]. intros l r0. simpl.
    destruct (decide (p = l)) as [->|Hne].
    + rewrite lookup_insert_eq. intros [= <-]. simpl. eauto.
    + rewrite lookup_insert_ne by done. eauto.
  - intros c r0 Hne Hc.
    destruct (q_node _ _ Hq c r0) as (r' & Hr' & ? & ? & _); [|eauto].
    simpl. by rewrite lookup_insert_ne.
Qed.

(** [withCancel] leaves a store without children maps without them: the
    new node is never put into a children map. *)
Lemma withCancel_no_children fuel parent st c st' :
  no_children st →
  withCancel fuel parent st = Ok (c, st') →
  no_children st'.
Proof.
  intros Hno H. destruct parent as [parent|]; [|done].
  unfold withCancel, newCancelCtx in H. inv_M.
  injection Hm as <- <-.
  set (sta := {| heap := _; chans := _ |}) in *.
  assert (no_children sta) as Hnoa.
  { intros l r. unfold sta. simpl.
    destruct (decide (fresh (dom (heap st)) = l)) as [->|Hne].
    - rewrite lookup_insert_eq. by intros [= <-].
    - rewrite lookup_insert_ne by done. eauto. }
  unfold propagateCancel in Hm0. inv_M.
  apply Done_quiet in Hm. pose proof (quiet_no_children _ _ Hm Hnoa) as Hno1.
  repeat match goal with u : unit |- _ => destruct u end.
  destruct a as [d|]; inv_M; [|done].
  match goal with H : (if ?b then _ else _) _ = _ |- _ => destruct b end;
    inv_M; [|done].
  by eapply cancel_no_cascade.
Qed.

Lemma Done_no_children c st d st' :
  no_children st → Done c st = Ok (d, st') → no_children st'.
Proof. intros Hno H%Done_quiet. by eapply quiet_no_children. Qed.

(** ** When [cancel] returns *)

Lemma cancel_ready_returns fuel c rm e cause0 st :
  cancel_ready fuel c rm st →
  ∃ st', cancel fuel c rm (Some e) cause0 st = Ok (tt, st').
Proof.
  intros (r & Hc & Hr). destruct (err r) as [e0|] eqn:He.
  - exists st. eapply cancel_already; [done|]. by rewrite He.
  - destruct (Hr eq_refl) as (Hopen & Hch & Hrm).
    by eapply cancel_returns.
Qed.

(** ** What [withCancel] does to the nodes that were there *)

Lemma only_done_refl st : only_done st st.
Proof. intros l r Hl. exists r. by split_and!. Qed.

Lemma only_done_trans st1 st2 st3 :
  only_done st1 st2 → only_done st2 st3 → only_done st1 st3.
Proof.
  intros H1 H2 l r Hl.
  destruct (H1 _ _ Hl) as (r2 & Hl2 & ? & ? & ? & ? & Hd1).
  destruct (H2 _ _ Hl2) as (r3 & Hl3 & ? & ? & ? & ? & Hd2).
  exists r3. split_and!; [done|congruence..|auto].
Qed.

Lemma Done_only_done c st d st' : Done c st = Ok (d, st') → only_done st st'.
Proof.
  rewrite Done_nearest. pose proof (nearest_not_value c) as Hnv.
  destruct (nearest c) as [e|p k v|l|x]; simpl; intros H.
  - apply ret_Ok in H as [_ ->]. apply only_done_refl.
  - by destruct (Hnv p k v).
  - apply cancelCtx_Done_Ok in H
      as (r & Hl & [(_ & _ & ->)|(Hd & n & _ & _ & ->)]); [apply only_done_refl|].
    intros l0 r0 H0. simpl. destruct (decide (l = l0)) as [->|Hne].
    + rewrite lookup_insert_eq. simplify_eq. eexists; split; [done|].
      split_and!; [done..|]. intros d0 Hd0. congruence.
    + rewrite lookup_insert_ne by done. exists r0. by split_and!.
  - apply ret_Ok in H as [_ ->]. apply only_done_refl.
Qed.

(** [cancel] on a node without children map and without leaving its
    parent writes that node alone. *)
Lemma cancel_leaf fuel c e cause0 r st st' :
  heap st !! c = Some r → err r = None → children r = None →
  cancel fuel c false (Some e) cause0 st = Ok (tt, st') →
  heap st' = <[c := fired_record r e cause0]> (heap st).
Proof.
  intros Hc He Hch H. rewrite (cancel_fire _ _ _ _ _ _ _ Hc He) in H.
  assert (cancel_rest fuel c false r e cause0 (fired_state st c r e cause0)
          = Ok (tt, st')) as Hrest.
  { destruct (done r) as [d|]; [|done]. by destruct (is_closed st d). }
  clear H. unfold cancel_rest in Hrest. rewrite Hch in Hrest. simpl in Hrest.
  rewrite elements_empty in Hrest. simpl in Hrest.
  unfold bind, ret, modify in Hrest. rewrite fired_state_lookup in Hrest.
  injection Hrest as <-. simpl. rewrite insert_insert_eq.
  f_equal. unfold set_children, fired_record. simpl. by rewrite Hch.
Qed.

(** [withCancel] returns a node that was not in the store and leaves every
    node that was there with its parent, error, cause and children map. *)
Lemma withCancel_only_done fuel parent st c st' :
  withCancel fuel parent st = Ok (c, st') →
  heap st !! c = None ∧ only_done st st' ∧
  ∃ r, heap st' !! c = Some r ∧ children r = None.
Proof.
  intros H. destruct parent as [parent|]; [|done].
  unfold withCancel, newCancelCtx in H. inv_M.
  injection Hm as <- <-.
  destruct (alloc_grows st {| Context_ := parent; done := None; children := None;
                              err := None; cause := None |}) as [Hfresh [Hg _]].
  set (c := fresh (dom (heap st))) in *.
  set (sta := {| heap := _; chans := _ |}) in *.
  repeat match goal with u : unit |- _ => destruct u end.
  split; [done|].
  assert (only_done st sta) as Hsta.
  { intros l r Hl. exists r. split_and!; auto. }
  assert (∃ ra, heap sta !! c = Some ra ∧ children ra = None ∧ err ra = None)
    as (ra & Hca & Hcha & Hea).
  { eexists. unfold sta. simpl. rewrite lookup_insert_eq. done. }
  unfold propagateCancel in Hm0. inv_M.
  pose proof (Done_only_done _ _ _ _ Hm) as Hd.
  destruct (Hd _ _ Hca) as (r0 & Hc0 & _ & He0 & _ & Hch0 & _).
  rewrite Hcha in Hch0. rewrite Hea in He0.
  assert (only_done st st0) as Hst0 by by eapply only_done_trans.
  destruct a as [d|]; inv_M; [|split; [done|]; by eauto].
  match goal with H : (if ?b then _ else _) _ = _ |- _ => destruct b end;
    inv_M; [|split; [done|]; by eauto].
  assert (heap st1 = <[c := fired_record r0
            (default Canceled a) a0]> (heap st0)) as Hheap.
  { match goal with H : cancel _ _ _ _ _ _ = _ |- _ => rename H into Hcancel end.
    destruct a as [e|]; [|rewrite cancel_unfold in Hcancel; discriminate Hcancel].
    exact (cancel_leaf _ _ _ _ _ _ _ Hc0 He0 Hch0 Hcancel). }
  split.
  - intros l r Hl. destruct (Hst0 _ _ Hl) as (r' & Hl' & Hrest).
    exists r'. split; [|done]. rewrite Hheap.
    rewrite lookup_insert_ne; [done|]. intros <-. congruence.
  - eexists. rewrite Hheap, lookup_insert_eq. done.
Qed.

(** ** Every operation keeps the store consistent *)

Lemma empty_state_consistent : consistent empty_state.
Proof.
  split; intros l; intros; simpl in *;
    match goal with H : ∅ !! _ = Some _ |- _ => by rewrite lookup_empty in H end.
Qed.

Lemma State_eta st : {| heap := heap st; chans := chans st |} = st.
Proof. by destruct st. Qed.

Lemma set_children_None_id r : children r = None → set_children None r = r.
Proof. destruct r. simpl. by intros ->. Qed.

Lemma alloc_consistent st parent :
  consistent st →
  consistent {| heap := <[fresh (dom (heap st)) :=
                           {| Context_ := parent; done := None; children := None;
                              err := None; cause := None |}]> (heap st);
                chans := chans st |}.
Proof.
  intros [C1 C2 C3 C4 C5].
  set (c := fresh (dom (heap st))).
  assert (∀ l r, <[c := {| Context_ := parent; done := None; children := None;
                           err := None; cause := None |}]> (heap st) !! l = Some r →
                 (l ≠ c ∧ heap st !! l = Some r) ∨
                 (done r = None ∧ err r = None ∧ children r = None)) as Hcases.
  { intros l r. destruct (decide (c = l)) as [->|Hne].
    - rewrite lookup_insert_eq. intros [= <-]. by right.
    - rewrite lookup_insert_ne by done. left. split; [congruence|done]. }
  split; simpl.
  - intros l r Hl. destruct (Hcases _ _ Hl) as [[_ H]|(_ & _ & H)]; eauto.
  - intros l r d Hl Hd Hcl.
    destruct (Hcases _ _ Hl) as [[_ H]|(H & _ & _)]; [|congruence].
    by eapply C2.
  - intros l r Hl He.
    destruct (Hcases _ _ Hl) as [[_ H]|(_ & H & _)].
    + by eapply C3.
    + rewrite H in He. by destruct He.
  - intros l r n Hl Hd.
    destruct (Hcases _ _ Hl) as [[_ H]|(H & _ & _)]; [|congruence].
    by eapply C4.
  - intros l l' r r' n Hl Hl' Hd Hd'.
    destruct (Hcases _ _ Hl) as [[_ H]|(H & _ & _)]; [|congruence].
    destruct (Hcases _ _ Hl') as [[_ H']|(H' & _ & _)]; [|congruence].
    by eapply C5.
Qed.

Lemma cancelCtx_Done_consistent c st d st' :
  consistent st → cancelCtx_Done c st = Ok (d, st') → consistent st'.
Proof.
  intros Hcs (r & Hc & [(_ & _ & ->)|(Hd & n & -> & Hn & ->)])%cancelCtx_Done_Ok;
    [done|].
  destruct Hcs as [C1 C2 C3 C4 C5].
  assert (∀ l r0, <[c := set_done (Some (mkchan n)) r]> (heap st) !! l = Some r0 →
                  (l ≠ c ∧ heap st !! l = Some r0) ∨
                  (l = c ∧ r0 = set_done (Some (mkchan n)) r)) as Hcases.
  { intros l r0. destruct (decide (c = l)) as [->|Hne].
    - rewrite lookup_insert_eq. intros [= <-]. by right.
    - rewrite lookup_insert_ne by done. left. split; [congruence|done]. }
  assert (∀ l r0 m, heap st !! l = Some r0 → done r0 = Some (mkchan m) → m ≠ n)
    as Hother.
  { intros l r0 m Hl Hm ->. destruct (C4 _ _ _ Hl Hm) as [? ?]. congruence. }
  assert (∀ d0, is_closed {| heap := <[c := set_done (Some (mkchan n)) r]> (heap st);
                             chans := <[n := false]> (chans st) |} d0 = true →
                is_closed st d0 = true) as Hcl.
  { intros [|m]; simpl; [done|]. destruct (decide (n = m)) as [->|Hne].
    - by rewrite lookup_insert_eq.
    - by rewrite lookup_insert_ne. }
  split; simpl.
  - intros l r0 Hl. destruct (Hcases _ _ Hl) as [[_ H]|[-> ->]]; simpl; eauto.
  - intros l r0 d0 Hl Hd0 Hc0.
    destruct (Hcases _ _ Hl) as [[_ H]|[-> ->]].
    + eapply C2; eauto.
    + simpl in Hd0. injection Hd0 as <-. simpl in Hc0.
      by rewrite lookup_insert_eq in Hc0.
  - intros l r0 Hl He.
    destruct (Hcases _ _ Hl) as [[Hne H]|[-> ->]].
    + destruct (C3 _ _ H He) as [? (d0 & Hd0 & Hc0)]. split; [done|].
      exists d0. split; [done|]. destruct d0 as [|m]; [done|]. simpl.
      rewrite lookup_insert_ne; [done|]. intros ->. by eapply Hother.
    + simpl in He. destruct (C3 _ _ Hc He) as [_ (d0 & Hd0 & _)]. congruence.
  - intros l r0 m Hl Hm.
    destruct (Hcases _ _ Hl) as [[_ H]|[-> ->]].
    + destruct (decide (n = m)) as [->|Hne].
      * rewrite lookup_insert_eq. eauto.
      * rewrite lookup_insert_ne by done. by eapply C4.
    + simpl in Hm. injection Hm as <-. rewrite lookup_insert_eq. eauto.
  - intros l l' r0 r0' m Hl Hl' Hm Hm'.
    destruct (Hcases _ _ Hl) as [[_ H]|[-> ->]];
      destruct (Hcases _ _ Hl') as [[_ H']|[-> ->]]; [by eapply C5| | |done].
    + simpl in Hm'. injection Hm' as <-. by destruct (Hother _ _ _ H Hm).
    + simpl in Hm. injection Hm as <-. by destruct (Hother _ _ _ H' Hm').
Qed.

Lemma Done_consistent c st d st' :
  consistent st → Done c st = Ok (d, st') → consistent st'.
Proof.
  intros Hcs. rewrite Done_nearest. pose proof (nearest_not_value c) as Hnv.
  destruct (nearest c) as [e|p k v|l|x]; simpl; intros H.
  - by apply ret_Ok in H as [_ ->].
  - by destruct (Hnv p k v).
  - by eapply cancelCtx_Done_consistent.
  - by apply ret_Ok in H as [_ ->].
Qed.

Lemma removeChild_consistent fuel parent child st st' :
  consistent st → removeChild fuel parent child st = Ok (tt, st') →
  consistent st'.
Proof.
  intros Hcs H. unfold removeChild, parentCancelCtx in H. inv_M.
  pose proof (Done_consistent _ _ _ _ Hcs Hm0) as Hcs1.
  assert (st0 = st1) as <-.
  { case_bool_decide; inv_M; [done|].
    match goal with v : any |- _ => destruct v end; inv_M; try done.
    case_bool_decide; inv_M; done. }
  destruct a as [p|]; inv_M; [|done].
  match goal with H : heap _ !! p = Some ?r |- _ =>
    rewrite (cs_children _ Hcs1 _ _ H) in *
  end.
  by inv_M.
Qed.

Lemma fired_state_consistent st c r e cause0 :
  consistent st → heap st !! c = Some r → err r = None →
  consistent (fired_state st c r e cause0).
Proof.
  intros [C1 C2 C3 C4 C5] Hc He.
  assert (∀ d, done r = Some d → is_closed st d = false) as Hopen.
  { intros d Hd. destruct (is_closed st d) eqn:Hcl; [|done].
    destruct (C2 _ _ _ Hc Hd Hcl) as [? ?]. congruence. }
  assert (∀ l r0, heap (fired_state st c r e cause0) !! l = Some r0 →
                  (l ≠ c ∧ heap st !! l = Some r0) ∨
                  (l = c ∧ r0 = fired_record r e cause0)) as Hcases.
  { intros l r0. simpl. destruct (decide (c = l)) as [->|Hne].
    - rewrite lookup_insert_eq. intros [= <-]. by right.
    - rewrite lookup_insert_ne by done. left. split; [congruence|done]. }
  assert (∀ l r0 d, l ≠ c → heap st !! l = Some r0 → done r0 = Some d →
                    is_closed (fired_state st c r e cause0) d = is_closed st d)
    as Hsame.
  { intros l r0 [|m] Hne Hl Hd; [done|]. simpl.
    destruct (done r) as [[|n]|] eqn:Hdr; try done.
    rewrite lookup_insert_ne; [done|]. intros ->.
    by destruct Hne; eapply C5. }
  split.
  - intros l r0 Hl. destruct (Hcases _ _ Hl) as [[_ H]|[-> ->]]; simpl; eauto.
  - intros l r0 d Hl Hd Hcl. destruct (Hcases _ _ Hl) as [[Hne H]|[-> ->]].
    + eapply C2; [done..|]. by rewrite <- (Hsame _ _ _ Hne H Hd).
    + simpl. eauto.
  - intros l r0 Hl He0. destruct (Hcases _ _ Hl) as [[Hne H]|[-> ->]].
    + destruct (C3 _ _ H He0) as [? (d & Hd & Hcl)]. split; [done|].
      exists d. split; [done|]. by rewrite (Hsame _ _ _ Hne H Hd).
    + simpl. split; [eauto|]. eexists; split; [done|].
      apply fired_state_closed.
  - intros l r0 n Hl Hn.
    assert (is_Some (chans st !! n)) as Hst.
    { destruct (Hcases _ _ Hl) as [[Hne H]|[-> ->]]; [by eapply C4|].
      simpl in Hn. destruct (done r) as [d|] eqn:Hdr; simpl in Hn; [|done].
      injection Hn as ->. by eapply C4. }
    simpl. destruct (done r) as [[|m]|]; try done.
    destruct (decide (m = n)) as [->|Hne].
    + rewrite lookup_insert_eq. eauto.
    + by rewrite lookup_insert_ne.
  - intros l l' r0 r0' n Hl Hl' Hn Hn'.
    assert (∀ l1 r1, heap (fired_state st c r e cause0) !! l1 = Some r1 →
                     done r1 = Some (mkchan n) →
                     ∃ r2, heap st !! l1 = Some r2 ∧ done r2 = Some (mkchan n))
      as Hback.
    { intros l1 r1 H1 Hd1. destruct (Hcases _ _ H1) as [[_ H]|[-> ->]]; [eauto|].
      exists r. split; [done|]. simpl in Hd1.
      destruct (done r); simpl in Hd1; congruence. }
    destruct (Hback _ _ Hl Hn) as (? & ? & ?).
    destruct (Hback _ _ Hl' Hn') as (? & ? & ?).
    by eapply C5.
Qed.

Lemma cancel_consistent fuel c rm err0 cause0 st st' :
  consistent st → cancel fuel c rm err0 cause0 st = Ok (tt, st') →
  consistent st'.
Proof.
  intros Hcs H. destruct err0 as [e|]; [|by destruct fuel].
  destruct (heap st !! c) as [r|] eqn:Hc; cycle 1.
  { rewrite cancel_unfold in H. unfold bind, deref in H. by rewrite Hc in H. }
  destruct (err r) as [e0|] eqn:He.
  { rewrite (cancel_already _ _ _ _ _ _ _ Hc) in H by by rewrite He.
    by injection H as <-. }
  rewrite (cancel_fire _ _ _ _ _ _ _ Hc He) in H.
  assert (cancel_rest fuel c rm r e cause0 (fired_state st c r e cause0)
          = Ok (tt, st')) as Hrest.
  { destruct (done r) as [d|]; [|done]. by destruct (is_closed st d). }
  clear H. pose proof (fired_state_consistent _ _ _ e cause0 Hcs Hc He) as Hcs2.
  unfold cancel_rest in Hrest. rewrite (cs_children _ Hcs _ _ Hc) in Hrest.
  simpl in Hrest. rewrite elements_empty in Hrest. simpl in Hrest.
  unfold bind at 1, ret in Hrest. unfold bind at 1, modify in Hrest.
  rewrite fired_state_lookup in Hrest.
  rewrite set_children_None_id in Hrest
    by (simpl; by apply (cs_children _ Hcs _ _ Hc)).
  rewrite insert_id in Hrest by apply fired_state_lookup.
  rewrite State_eta in Hrest.
  destruct rm; [by eapply removeChild_consistent|].
  by apply ret_Ok in Hrest as [_ ->].
Qed.

Lemma withCancel_consistent fuel parent st c st' :
  consistent st → withCancel fuel parent st = Ok (c, st') → consistent st'.
Proof.
  intros Hcs H. destruct parent as [parent|]; [|done].
  unfold withCancel, newCancelCtx in H. inv_M.
  injection Hm as <- <-. pose proof (alloc_consistent st parent Hcs) as Hcsa.
  unfold propagateCancel in Hm0. inv_M.
  pose proof (Done_consistent _ _ _ _ Hcsa Hm) as Hcs0.
  repeat match goal with u : unit |- _ => destruct u end.
  destruct a as [d|]; inv_M; [|done].
  match goal with H : (if ?b then _ else _) _ = _ |- _ => destruct b end;
    inv_M; [|done].
  by eapply cancel_consistent.
Qed.

(** In a consistent store a fired signal comes with an error and a cause:
    a parent made of sentinel-free value layers over a CancelScope whose
    signal has fired reports both. *)
Lemma fired_parent_reports fuel parent st d st1 :
  consistent st → sentinel_free parent → vdepth parent ≤ fuel →
  (∃ p, nearest parent = cancelCtxP p) →
  Done parent st = Ok (Some d, st1) → is_closed st1 d = true →
  ∃ e ca, Err parent st = Ok (Some e) ∧ Cause fuel parent st = Ok (Some ca).
Proof.
  intros Hcs Hsf Hfuel [p Hp] HD Hcl.
  destruct (Done_fired _ _ _ _ HD Hcl) as [-> Hn]. rewrite Hp in Hn.
  destruct Hn as (r & Hr & Hd).
  destruct (cs_fired _ Hcs _ _ _ Hr Hd Hcl) as [e He].
  destruct (cs_err _ Hcs _ _ Hr) as [[ca Hca] _]; [by rewrite He|].
  exists e, ca. split.
  - rewrite Err_nearest, Hp. simpl. unfold cancelCtx_Err. by rewrite Hr, He.
  - unfold Cause. rewrite (Value_sentinel st parent Hsf fuel Hfuel), Hp.
    simpl. by rewrite Hr, Hca.
Qed.

Lemma reachable_consistent st : reachable st → consistent st.
Proof.
  induction 1 as [|fuel parent st c st' _ IH H|fuel c rm err0 cause0 st st' _ IH H
                 |G st d st' _ IH H].
  - apply empty_state_consistent.
  - by eapply withCancel_consistent.
  - by eapply cancel_consistent.
  - by eapply Done_consistent.
Qed.

(** No store the package builds holds a children map, so no [cancel] on
    such a store reaches a node other than its own. *)
Lemma reachable_no_cascade st fuel p rm err0 cause0 st' :
  reachable st → cancel fuel p rm err0 cause0 st = Ok (tt, st') →
  ∀ c r, c ≠ p → heap st !! c = Some r →
         ∃ r', heap st' !! c = Some r' ∧ err r' = err r ∧ cause r' = cause r.
Proof.
  intros Hr H. apply reachable_consistent in Hr.
  by destruct (cancel_no_cascade _ _ _ _ _ _ _ (cs_children _ Hr) H).
Qed.

(** ** A published signal stays *)

Lemma set_done_id r d : done r = Some d → set_done (Some d) r = r.
Proof. destruct r. simpl. by intros ->. Qed.

(** Whatever runs, a node keeps the signal it has published. *)
Lemma runs_to_done st st' :
  runs_to st st' →
  ∀ c r d, heap st !! c = Some r → done r = Some d →
           ∃ r', heap st' !! c = Some r' ∧ done r' = Some d.
Proof.
  induction 1 as [|fuel parent st1 c0 st2 _ IH H|fuel c0 rm err0 cause0 st1 st2 _ IH H
                 |G st1 d0 st2 _ IH H]; intros c r d Hc Hd.
  - eauto.
  - destruct (IH _ _ _ Hc Hd) as (r1 & Hc1 & Hd1).
    destruct (withCancel_only_done _ _ _ _ _ H) as (_ & Hod & _).
    destruct (Hod _ _ Hc1) as (r2 & Hc2 & _ & _ & _ & _ & Hk). eauto.
  - destruct (IH _ _ _ Hc Hd) as (r1 & Hc1 & Hd1).
    destruct (st_node _ _ (cancel_steps _ _ _ _ _ _ _ H) _ _ Hc1)
      as (r2 & Hc2 & _ & Hk & _). eauto.
  - destruct (IH _ _ _ Hc Hd) as (r1 & Hc1 & Hd1).
    destruct (st_node _ _ (Done_steps _ _ _ _ H) _ _ Hc1)
      as (r2 & Hc2 & _ & Hk & _). eauto.
Qed.

(** * The claims *)

(** C1, which the code does not meet.  [P] is derived from [Background]
    and [C] from [P] while [P] is not canceled: [P]'s children set stays
    nil, and after [P]'s cancel function has run, [P] reports [Canceled]
    while [C.Err()] and [Cause(C)] are still nil. *)
Theorem child_never_registered :
  let P := cancelCtxP 0 in
  let C := cancelCtxP 1 in
  let cancelP : CancelFunc := λ fuel, cancel fuel 0 true (Some Canceled) None in
  let cancelC : CancelFunc := λ fuel, cancel fuel 1 true (Some Canceled) None in
  WithCancel 1 (Some Background) empty_state = Ok ((P, cancelP), store_live) ∧
  WithCancel 1 (Some P) store_live = Ok ((C, cancelC), store_parent_child) ∧
  children <$> heap store_parent_child !! 0 = Some None ∧
  cancelP 1 store_parent_child = Ok (tt, store_parent_canceled) ∧
  Err P store_parent_canceled = Ok (Some Canceled) ∧
  Err C store_parent_canceled = Ok None ∧
  Cause 1 C store_parent_canceled = Ok None.
Proof.
  intros P C cancelP cancelC.
  assert (withCancel 1 (Some Background) empty_state = Ok (0, store_live))
    as H1 by (vm_compute; reflexivity).
  assert (withCancel 1 (Some P) store_live = Ok (1, store_parent_child))
    as H2 by (vm_compute; reflexivity).
  split_and!.
  - unfold WithCancel. by rewrite (bind_eq _ _ _ _ _ H1).
  - unfold WithCancel. by rewrite (bind_eq _ _ _ _ _ H2).
  - reflexivity.
  - vm_compute; reflexivity.
  - reflexivity.
  - reflexivity.
  - reflexivity.
Qed.

(** C2. When the parent's done signal has fired and the parent reports an
    error and a cause, [withCancel] returns a new node that already holds
    the parent's error and cause: [Err()] and [Cause] on the child give
    them at once, and [WithCancel] returns that node with its cancel
    function.  Every node of the old store is left exactly as it was,
    so no children set has gained the child, and the child has none.  In a
    consistent store a parent made of value layers over a CancelScope
    reports an error and a cause as soon as its signal has fired. *)
Theorem withCancel_parent_canceled fuel parent st d st1 :
  Done parent st = Ok (Some d, st1) → is_closed st1 d = true →
  (∀ e ca,
     Err parent st = Ok (Some e) →
     Cause fuel parent st = Ok (Some ca) →
     let c := fresh (dom (heap st)) in
     let st' := born_canceled st parent e ca in
     withCancel fuel (Some parent) st = Ok (c, st') ∧
     WithCancel fuel (Some parent) st
     = Ok ((cancelCtxP c, λ fuel', cancel fuel' c true (Some Canceled) None), st') ∧
     heap st !! c = None ∧
     Err (cancelCtxP c) st' = Ok (Some e) ∧
     Cause fuel (cancelCtxP c) st' = Ok (Some ca) ∧
     (∀ l r, heap st !! l = Some r → heap st' !! l = Some r) ∧
     (∀ l r, heap st' !! l = Some r → l ≠ c → heap st !! l = Some r) ∧
     (∃ r, heap st' !! c = Some r ∧ children r = None)) ∧
  (consistent st → sentinel_free parent → vdepth parent ≤ fuel →
   (∃ p, nearest parent = cancelCtxP p) →
   ∃ e ca, Err parent st = Ok (Some e) ∧ Cause fuel parent st = Ok (Some ca)).
Proof.
  intros HD Hcl. split; [|by intros; eapply fired_parent_reports].
  intros e ca HE HC c st'.
  destruct (Done_fired _ _ _ _ HD Hcl) as [-> _].
  set (new := {| Context_ := parent; done := None; children := None;
                 err := None; cause := None |}).
  destruct (alloc_grows st new) as [Hfresh Hg]. fold c in Hfresh, Hg.
  set (sta := {| heap := <[c := new]> (heap st); chans := chans st |}) in *.
  assert (heap sta !! c = Some new) as Hc by (simpl; by rewrite lookup_insert_eq).
  assert (withCancel fuel (Some parent) st = Ok (c, st')) as Hwith.
  { unfold withCancel, newCancelCtx.
    rewrite (bind_eq _ _ st c sta) by done.
    assert (propagateCancel fuel parent c sta = Ok (tt, st')) as Hp.
    { unfold propagateCancel.
      rewrite (bind_eq _ _ _ _ _ (Done_published_grows _ _ _ _ Hg HD Hcl)).
      rewrite (bind_eq _ _ sta true sta)
        by (apply read_eq; cbv beta; rewrite <- Hcl; by destruct d).
      rewrite (bind_eq _ _ sta _ sta (read_eq _ _ _ (Err_grows _ _ _ _ Hg HE))).
      rewrite (bind_eq _ _ sta _ sta (read_eq _ _ _ (Cause_grows _ _ _ _ _ Hg HC))).
      rewrite (cancel_fire _ _ _ _ _ _ _ Hc eq_refl). simpl.
      unfold cancel_rest. simpl. rewrite elements_empty. simpl.
      unfold bind, ret, modify. simpl. rewrite lookup_insert_eq.
      unfold st', born_canceled. by rewrite !insert_insert_eq. }
    by rewrite (bind_eq _ _ _ _ _ Hp). }
  split_and!.
  - done.
  - unfold WithCancel. by rewrite (bind_eq _ _ _ _ _ Hwith).
  - done.
  - simpl. unfold cancelCtx_Err. simpl. by rewrite lookup_insert_eq.
  - unfold Cause. simpl. unfold cancelCtx_Value. simpl.
    by rewrite lookup_insert_eq.
  - intros l r Hl. simpl. rewrite lookup_insert_ne; [done|].
    fold c. congruence.
  - intros l r Hl Hne. simpl in Hl. by rewrite lookup_insert_ne in Hl.
  - eexists. simpl. by rewrite lookup_insert_eq.
Qed.

(** C3. Once a CancelScope holds an error, a further [cancel] on it with any
    reason returns at once and leaves the whole store as it was; and no
    [cancel] on any node, whatever it cascades into, no [Done] and no
    [withCancel] changes the error or the cause this node has recorded. *)
Theorem cancel_once c st r e0 :
  heap st !! c = Some r → err r = Some e0 →
  (∀ fuel rm e cause0, cancel fuel c rm (Some e) cause0 st = Ok (tt, st)) ∧
  (∀ fuel c' rm err' cause' st',
     cancel fuel c' rm err' cause' st = Ok (tt, st') →
     ∃ r', heap st' !! c = Some r' ∧ err r' = Some e0 ∧ cause r' = cause r) ∧
  (∀ G d st',
     Done G st = Ok (d, st') →
     ∃ r', heap st' !! c = Some r' ∧ err r' = Some e0 ∧ cause r' = cause r) ∧
  (∀ fuel parent c' st',
     withCancel fuel parent st = Ok (c', st') →
     ∃ r', heap st' !! c = Some r' ∧ err r' = Some e0 ∧ cause r' = cause r).
Proof.
  intros Hc He. split_and!.
  - intros. eapply cancel_already; [done|]. by rewrite He.
  - intros fuel c' rm err' cause' st' H.
    apply cancel_steps in H as [_ N _].
    destruct (N _ _ Hc) as (r' & Hr' & _ & _ & Herr).
    destruct (Herr _ He). eauto.
  - intros G d st' H%Done_only_done.
    destruct (H _ _ Hc) as (r' & Hr' & _ & E & C & _).
    exists r'. split_and!; congruence.
  - intros fuel parent c' st' (_ & H & _)%withCancel_only_done.
    destruct (H _ _ Hc) as (r' & Hr' & _ & E & C & _).
    exists r'. split_and!; congruence.
Qed.

(** C4. On a CancelScope in the store, [Done()] returns a signal and a
    second [Done()] returns the same one without touching the store.  The
    signal is the node's: after the call the node is what it was with this
    signal in its [done] field.  A signal that was already published is the
    one returned, and the store is untouched; when none was, the signal is
    a channel the store did not know, and it has not fired.  It is never
    replaced: whatever [withCancel], [cancel] and [Done] calls run
    afterwards, on this node or any other, [Done()] goes on returning it.
    After a [cancel] that returns, [Done()] returns a fired signal: the one
    published before when there was one, [closedchan] when the node had
    neither signal nor error; and on a ready node [cancel] does return.
    For the signal after [cancel] the node is taken as every consistent
    store has it: an error is recorded only with a fired signal. *)
Theorem Done_one_signal st c r :
  heap st !! c = Some r →
  (∃ d st1,
     Done (cancelCtxP c) st = Ok (Some d, st1) ∧
     Done (cancelCtxP c) st1 = Ok (Some d, st1) ∧
     heap st1 !! c = Some (set_done (Some d) r) ∧
     (∀ d0, done r = Some d0 → d = d0 ∧ st1 = st) ∧
     (done r = None →
      ∃ n, d = mkchan n ∧ chans st !! n = None ∧ is_closed st1 d = false) ∧
     (∀ st2, runs_to st1 st2 → Done (cancelCtxP c) st2 = Ok (Some d, st2))) ∧
  ((is_Some (err r) → ∃ d, done r = Some d ∧ is_closed st d = true) →
   ∀ fuel rm e cause0 st',
     cancel fuel c rm (Some e) cause0 st = Ok (tt, st') →
     ∃ d, Done (cancelCtxP c) st' = Ok (Some d, st') ∧
          is_closed st' d = true ∧
          (∀ d0, done r = Some d0 → d = d0) ∧
          (done r = None → err r = None → d = closedchan) ∧
          (∀ st2, runs_to st' st2 → Done (cancelCtxP c) st2 = Ok (Some d, st2))) ∧
  (∀ fuel rm e cause0,
     cancel_ready fuel c rm st →
     ∃ st', cancel fuel c rm (Some e) cause0 st = Ok (tt, st')).
Proof.
  intros Hc.
  assert (∀ s rs d, heap s !! c = Some rs → done rs = Some d →
            ∀ s2, runs_to s s2 → Done (cancelCtxP c) s2 = Ok (Some d, s2)) as Hstay.
  { intros s rs d Hs Hd s2 Hrun.
    destruct (runs_to_done _ _ Hrun _ _ _ Hs Hd) as (r2 & Hc2 & Hd2).
    by eapply cancelCtx_Done_published. }
  split_and!; [| |by intros; apply cancel_ready_returns].
  - simpl. destruct (done r) as [d|] eqn:Hd.
    + exists d, st. rewrite (cancelCtx_Done_published _ _ _ _ Hc Hd).
      split_and!; [done..| | | |].
      * by rewrite set_done_id.
      * by intros ? [= <-].
      * done.
      * by eapply Hstay.
    + eexists _, _. rewrite (cancelCtx_Done_fresh _ _ _ Hc Hd).
      split_and!; [done| | |done| |].
      * eapply cancelCtx_Done_published; simpl; [by rewrite lookup_insert_eq|done].
      * simpl. by rewrite lookup_insert_eq.
      * intros _. eexists. split_and!; [done| |].
        -- apply not_elem_of_dom, is_fresh.
        -- simpl. by rewrite lookup_insert_eq.
      * eapply Hstay; simpl; [by rewrite lookup_insert_eq|done].
  - intros Hinv fuel rm e cause0 st' H. destruct (err r) as [e0|] eqn:He.
    + rewrite (cancel_already fuel c rm e cause0 st r Hc) in H by by rewrite He.
      injection H as <-. destruct Hinv as (d & Hd & Hcl); [done|].
      exists d. simpl. rewrite (cancelCtx_Done_published _ _ _ _ Hc Hd).
      split_and!; [done..| | |]; [congruence..|]. by eapply Hstay.
    + destruct (cancel_fired _ _ _ _ _ _ _ _ Hc He H) as [[_ N C] _].
      destruct (N _ _ (fired_state_lookup st c r e cause0))
        as (r' & Hr' & _ & Hdone & _).
      exists (default closedchan (done r)). simpl.
      rewrite (cancelCtx_Done_published _ _ _ _ Hr' (Hdone _ eq_refl)).
      split_and!; [done| | | |].
      * apply C, fired_state_closed.
      * by intros d0 ->.
      * by intros ->.
      * eapply Hstay; [done|]. exact (Hdone _ eq_refl).
Qed.


(** C6, as amended.  On a chain that reaches an EmptyScope after [n] nodes,
    the lookup of a key that no node of the chain answers to, and whose
    comparison with each key the chain holds does not panic, returns nil
    with any fuel above [n]: both the method [Value] and the loop [value]
    terminate at the root.  The walk compares the key with every key on its
    way, so a comparison that panics stops it before the root. *)
Theorem Value_unregistered_key st c n key :
  chain_to_empty st c n → ¬ holds_key st c key →
  (∀ k, holds_key st c k → any_eq key k ≠ None) →
  ∀ fuel, n < fuel →
  Value fuel c key st = Ok ANil ∧ value fuel c key st = Ok ANil.
Proof.
  intros Hch Hno Hcmp fuel Hfuel. split.
  - eapply Value_misses; [done..|lia].
  - by eapply value_misses.
Qed.

(** C6 as first stated fails: [WithValue] accepts the key
    [[1]any{[]int{1}}], whose type is comparable; the lookup of
    [[1]any{[]int{2}}], which no node stores, panics in the comparison
    with it, with any fuel, instead of returning nil. *)
Lemma Value_unregistered_key_counterexample :
  WithValue (Some Background) key_slice1 (AInt 0)
  = Ok (valueCtxP Background key_slice1 (AInt 0)) ∧
  chain_to_empty empty_state (valueCtxP Background key_slice1 (AInt 0)) 1 ∧
  ¬ holds_key empty_state (valueCtxP Background key_slice1 (AInt 0)) key_slice2 ∧
  (∀ fuel, Value fuel (valueCtxP Background key_slice1 (AInt 0)) key_slice2
             empty_state = Panic uncomparable) ∧
  (∀ fuel, value (S fuel) (valueCtxP Background key_slice1 (AInt 0)) key_slice2
             empty_state = Panic uncomparable).
Proof.
  split_and!.
  - reflexivity.
  - apply chain_value; [reflexivity|apply chain_empty].
  - intros H. inversion H as [| ? ? ? ? H' | |]; subst. inversion H'.
  - reflexivity.
  - reflexivity.
Qed.

(** C7. [cancel] without an error panics on every node, with every cause and
    before anything else is looked at.  A [cancel] that carries an error
    but no cause, on a node that is not yet canceled or whose cause is its
    error, leaves the node with a recorded cause equal to its recorded
    error, which is the given error when the node was not yet canceled; and
    on a ready node such a [cancel] does return. *)
Theorem cancel_reason :
  (∀ fuel c rm cause0 st,
     cancel fuel c rm None cause0 st = Panic missing_cancel_error) ∧
  (∀ fuel c rm e st st' r,
     heap st !! c = Some r → (err r = None ∨ cause r = err r) →
     cancel fuel c rm (Some e) None st = Ok (tt, st') →
     ∃ r', heap st' !! c = Some r' ∧ is_Some (err r') ∧ cause r' = err r' ∧
           (err r = None → err r' = Some e)) ∧
  (∀ fuel c rm e st,
     cancel_ready fuel c rm st →
     ∃ st', cancel fuel c rm (Some e) None st = Ok (tt, st')).
Proof.
  split_and!; [by intros []| |by intros; apply cancel_ready_returns].
  intros fuel c rm e st st' r Hc Hinv H.
  destruct (err r) as [e0|] eqn:He.
  - destruct Hinv as [|Hcause]; [done|].
    rewrite (cancel_already fuel c rm e None st r Hc) in H by by rewrite He.
    injection H as <-. exists r. rewrite He. naive_solver.
  - destruct (cancel_fired _ _ _ _ _ _ _ _ Hc He H) as [[_ N _] _].
    destruct (N _ _ (fired_state_lookup st c r e None))
      as (r' & Hr' & _ & _ & Herr).
    destruct (Herr e eq_refl) as [E1 E2]. exists r'. rewrite E1, E2. eauto.
Qed.

(** C8. A [cancel] on a ready node returns, and a [cancel] that returns
    leaves every lookup as it was: for every context [G], every key and
    every amount of fuel, [G.Value(key)] and the loop [value] give after the
    cancellation what they gave before it. *)
Theorem cancel_keeps_values fuel c rm e cause0 st :
  (cancel_ready fuel c rm st →
   ∃ st', cancel fuel c rm (Some e) cause0 st = Ok (tt, st')) ∧
  (∀ st', cancel fuel c rm (Some e) cause0 st = Ok (tt, st') →
     ∀ n G key, Value n G key st' = Value n G key st ∧
                value n G key st' = value n G key st).
Proof.
  split; [apply cancel_ready_returns|].
  intros st' H%cancel_steps n G key.
  split; [by apply Value_steps | by apply value_steps].
Qed.

(** C9. A ValueScope forwards [Done], [Err] and [Deadline] to its parent:
    [Done] and [Err] are the parent's on every store, effects included, and
    [Deadline] reaches the outcome the parent's reaches, of which there is
    at most one, with one more unit of fuel for the forwarding step. *)
Theorem valueCtx_delegates p k v st :
  Done (valueCtxP p k v) st = Done p st ∧
  Err (valueCtxP p k v) st = Err p st ∧
  (∀ fuel, Deadline (S fuel) (valueCtxP p k v) st = Deadline fuel p st) ∧
  (∀ o, Deadline_is (valueCtxP p k v) st o ↔ Deadline_is p st o) ∧
  (∀ o1 o2, Deadline_is p st o1 → Deadline_is p st o2 → o1 = o2).
Proof.
  split_and!; [done..| |apply Deadline_is_unique].
  intros o. unfold Deadline_is. split.
  - intros [Ho [fuel H]]. split; [done|]. destruct fuel as [|fuel].
    + simpl in H. congruence.
    + by exists fuel.
  - intros [Ho [fuel H]]. split; [done|]. by exists (S fuel).
Qed.

(** C10, as amended.  [WithValue] accepts or refuses by parent and key
    alone: with a parent, it returns a scope exactly when the key is not
    nil and its type is comparable, whatever the value.  With a nil value
    it returns the scope that stores nil, on which [Value] of the key gives
    nil when [==] finds the key equal to itself: the answer a chain to the
    root gives for a key that none of its nodes holds and that compares
    with the keys it holds without a panic. *)
Theorem WithValue_nil_value parent key :
  (∀ val, (∃ c, WithValue (Some parent) key val = Ok c) ↔
          (key ≠ ANil ∧ comparable key = true)) ∧
  (key ≠ ANil → comparable key = true → any_eq key key = Some true →
   WithValue (Some parent) key ANil = Ok (valueCtxP parent key ANil) ∧
   (∀ fuel st, Value fuel (valueCtxP parent key ANil) key st = Ok ANil) ∧
   (∀ st n fuel, chain_to_empty st parent n → ¬ holds_key st parent key →
                 (∀ k, holds_key st parent k → any_eq key k ≠ None) →
                 n ≤ fuel →
                 Value fuel parent key st
                 = Value fuel (valueCtxP parent key ANil) key st)).
Proof.
  split.
  - intros val. unfold WithValue. split.
    + intros [c H]. case_bool_decide; [done|].
      destruct (comparable key); [done|]. simpl in H. done.
    + intros [Hk Hc]. rewrite bool_decide_eq_false_2, Hc by done. eauto.
  - intros Hk Hc Hself.
    assert (∀ fuel st, Value fuel (valueCtxP parent key ANil) key st = Ok ANil)
      as HV.
    { intros fuel st. cbn [Value]. unfold valueCtx_Value. by rewrite Hself. }
    split_and!; [|done|].
    + unfold WithValue. by rewrite bool_decide_eq_false_2, Hc.
    + intros st n fuel Hch Hno Hcmp Hfuel. rewrite HV.
      by eapply Value_misses.
Qed.

(** C10 as first stated fails: [WithValue] accepts the key
    [[1]any{[]int{1}}] with a nil value, and [Value] of that key on the
    scope it returns panics in the comparison of the key with itself, on
    every store and with any fuel, where a chain that does not hold the key
    returns nil. *)
Lemma WithValue_nil_value_counterexample :
  WithValue (Some Background) key_slice1 ANil
  = Ok (valueCtxP Background key_slice1 ANil) ∧
  (∀ fuel st, Value fuel (valueCtxP Background key_slice1 ANil) key_slice1 st
              = Panic uncomparable) ∧
  (∀ fuel st, Value fuel Background key_slice1 st = Ok ANil).
Proof. split_and!; reflexivity. Qed.

(** * Instances *)

(** C2 on [G] above the canceled [P]. *)
Lemma withCancel_parent_canceled_witness :
  withCancel 1 (Some scope_G) store_canceled
  = Ok (1, born_canceled store_canceled scope_G Canceled Canceled) ∧
  Err (cancelCtxP 1) (born_canceled store_canceled scope_G Canceled Canceled)
  = Ok (Some Canceled).
Proof.
  assert (Done scope_G store_canceled = Ok (Some closedchan, store_canceled))
    as H1 by reflexivity.
  assert (is_closed store_canceled closedchan = true) as H2 by reflexivity.
  assert (Err scope_G store_canceled = Ok (Some Canceled)) as H3 by reflexivity.
  assert (Cause 1 scope_G store_canceled = Ok (Some Canceled)) as H4 by reflexivity.
  pose proof (proj1 (withCancel_parent_canceled 1 scope_G store_canceled
                       closedchan store_canceled H1 H2)
                Canceled Canceled H3 H4) as (Hw & _ & _ & He & _).
  split; [exact Hw | exact He].
Defined.

(** C3 on the canceled [P], with a second reason. *)
Lemma cancel_once_witness :
  cancel 0 0 true (Some (ErrorString "late")) None store_canceled
  = Ok (tt, store_canceled).
Proof.
  assert (heap store_canceled !! 0
          = Some {| Context_ := Background; done := Some closedchan;
                    children := None; err := Some Canceled;
                    cause := Some Canceled |}) as H1 by reflexivity.
  exact (proj1 (cancel_once 0 store_canceled _ Canceled H1 eq_refl)
           0 true (ErrorString "late") None).
Defined.

(** C4 on the live [P]: the signal after its cancel function has run. *)
Lemma Done_one_signal_witness :
  ∃ d, Done (cancelCtxP 0) store_canceled = Ok (Some d, store_canceled) ∧
       is_closed store_canceled d = true.
Proof.
  assert (heap store_live !! 0
          = Some {| Context_ := Background; done := None; children := None;
                    err := None; cause := None |}) as H1 by reflexivity.
  assert (cancel 1 0 true (Some Canceled) None store_live
          = Ok (tt, store_canceled)) as H2 by (vm_compute; reflexivity).
  destruct (Done_one_signal store_live 0 _ H1) as (_ & Hafter & _).
  destruct (Hafter (λ H, match is_Some_None H with end)
              1 true Canceled None store_canceled H2) as (d & Hd & Hcl & _).
  exists d. split; [exact Hd | exact Hcl].
Defined.


(** C6 on [G] above the live [P], for the key ["b"]. *)
Lemma Value_unregistered_key_witness :
  Value 3 scope_G (AStr "b") store_live = Ok ANil ∧
  value 3 scope_G (AStr "b") store_live = Ok ANil.
Proof.
  assert (chain_to_empty store_live scope_G 2) as H1.
  { apply chain_value; [reflexivity|].
    eapply chain_cancel; [reflexivity|]. apply chain_empty. }
  assert (¬ holds_key store_live scope_G (AStr "b")) as H2.
  { intros H. inversion H as [| ? ? ? ? H' | |]; subst.
    inversion H' as [| | | ? ? ? Hl H'']; subst.
    vm_compute in Hl. injection Hl as <-. inversion H''. }
  assert (∀ k, holds_key store_live scope_G k → any_eq (AStr "b") k ≠ None)
    as H3 by (intros k _; by apply any_eq_no_slice).
  assert (2 < 3) as H4 by lia.
  exact (Value_unregistered_key store_live scope_G 2 (AStr "b") H1 H2 H3 3 H4).
Defined.

(** C7 on the live [P]: its cancel function records [Canceled] as error and
    as cause. *)
Lemma cancel_reason_witness :
  ∃ r', heap store_canceled !! 0 = Some r' ∧ is_Some (err r') ∧
        cause r' = err r' ∧ err r' = Some Canceled.
Proof.
  assert (heap store_live !! 0
          = Some {| Context_ := Background; done := None; children := None;
                    err := None; cause := None |}) as H1 by reflexivity.
  assert (cancel 1 0 true (Some Canceled) None store_live
          = Ok (tt, store_canceled)) as H2 by (vm_compute; reflexivity).
  destruct (proj1 (proj2 cancel_reason) 1 0 true Canceled store_live
              store_canceled _ H1 (or_introl eq_refl) H2)
    as (r' & Hr' & Hs & Hc & He).
  exists r'. split_and!; [exact Hr' | exact Hs | exact Hc | exact (He eq_refl)].
Defined.

(** C8 on [G] across the cancellation of [P]. *)
Lemma cancel_keeps_values_witness :
  Value 2 scope_G (AStr "a") store_canceled = Value 2 scope_G (AStr "a") store_live.
Proof.
  assert (cancel 1 0 true (Some Canceled) None store_live
          = Ok (tt, store_canceled)) as H1 by (vm_compute; reflexivity).
  exact (proj1 (proj2 (cancel_keeps_values 1 0 true Canceled None store_live)
                  store_canceled H1 2 scope_G (AStr "a"))).
Defined.

(** C10 for the key ["a"] on [Background]. *)
Lemma WithValue_nil_value_witness :
  WithValue (Some Background) (AStr "a") ANil
  = Ok (valueCtxP Background (AStr "a") ANil) ∧
  Value 1 Background (AStr "a") empty_state
  = Value 1 (valueCtxP Background (AStr "a") ANil) (AStr "a") empty_state.
Proof.
  assert (AStr "a" ≠ ANil) as H1 by discriminate.
  assert (comparable (AStr "a") = true) as H2 by reflexivity.
  assert (any_eq (AStr "a") (AStr "a") = Some true) as H3 by reflexivity.
  destruct (proj2 (WithValue_nil_value Background (AStr "a")) H1 H2 H3)
    as (Hw & _ & Hsame).
  split; [exact Hw|].
  apply (Hsame empty_state 0 1).
  - apply chain_empty.
  - intros H. inversion H.
  - intros k H. inversion H.
  - lia.
Defined.

(** * Further properties of the code *)

(** ** Lookup *)

(** The loop [value] and the method [Value] agree: one iteration of the
    loop on a context is the method call on it, for every node shape, key
    and store, panics and exhaustion of fuel included. *)
Lemma value_is_Value fuel c key st :
  value (S fuel) c key st = Value fuel c key st.
Proof.
  destruct c as [e|p k v|l|x]; simpl; try done.
  unfold valueCtx_Value. by rewrite (any_eq_sym k key).
Qed.

Lemma Value_above fuel p k v key st :
  any_eq k key = Some false →
  Value (S fuel) (valueCtxP p k v) key st = Value fuel p key st.
Proof.
  intros Hk. simpl. unfold valueCtx_Value. rewrite Hk.
  destruct p as [e|q k' v'|l|x]; simpl; try done.
  unfold valueCtx_Value. by rewrite (any_eq_sym k' key).
Qed.

(** X1. What [WithValue] stores, [Value] returns, for a key that [==]
    finds equal to itself: on the scope [WithValue] returns for such a key
    and a value, the lookup of that key gives that value on every store
    and with any fuel, whatever the parent holds.  A NaN key and a key that
    holds a slice are not such keys. *)
Theorem WithValue_then_Value parent key val c :
  WithValue parent key val = Ok c → any_eq key key = Some true →
  ∀ fuel st, Value fuel c key st = Ok val.
Proof.
  intros H Hself fuel st. destruct parent as [p|]; [|done]. unfold WithValue in H.
  case_bool_decide; [done|].
  destruct (comparable key) eqn:Hc; [|done]. injection H as <-.
  cbn [Value]. unfold valueCtx_Value. by rewrite Hself.
Qed.

(** X2. A scope from [WithValue] passes on the keys that [==] finds
    different from its own: the lookup of such a key gives what the
    parent's lookup gives, panics included, with one more unit of fuel
    for the step through the layer.  A NaN key is such a key for the
    scope that stores it. *)
Theorem WithValue_other_key parent key val c key' :
  WithValue (Some parent) key val = Ok c → any_eq key key' = Some false →
  ∀ fuel st, Value (S fuel) c key' st = Value fuel parent key' st.
Proof.
  intros H Hne fuel st. unfold WithValue in H.
  case_bool_decide; [done|].
  destruct (comparable key) eqn:Hc; [|done]. injection H as <-.
  by apply Value_above.
Qed.

(** ** A CancelScope in a chain of values *)

Lemma WithCancel_withCancel fuel parent st res st' :
  WithCancel fuel parent st = Ok (res, st') →
  ∃ c, withCancel fuel parent st = Ok (c, st') ∧ res.1 = cancelCtxP c.
Proof.
  unfold WithCancel. intros H. apply bind_Ok in H as (c & s & Hw & Hr).
  apply ret_Ok in Hr as [-> ->]. eauto.
Qed.

Lemma propagateCancel_steps fuel parent child st st' :
  propagateCancel fuel parent child st = Ok (tt, st') → steps_to st st'.
Proof.
  unfold propagateCancel. intros H.
  apply bind_Ok in H as (d & s1 & HD & H). apply Done_steps in HD.
  destruct d as [d|]; cycle 1.
  { apply ret_Ok in H as [_ <-]. done. }
  apply bind_Ok in H as (b & s2 & Hb & H).
  unfold read in Hb. injection Hb as <- <-.
  destruct (is_closed s1 d); cycle 1.
  { apply ret_Ok in H as [_ <-]. done. }
  apply bind_Ok in H as (e & s3 & He & H).
  unfold read in He. destruct (Err parent s1); try done. injection He as <- <-.
  apply bind_Ok in H as (ca & s4 & Hc & H).
  unfold read in Hc. destruct (Cause fuel parent s1); try done.
  injection Hc as <- <-.
  eapply steps_trans; [done|]. by eapply cancel_steps.
Qed.

(** The node [withCancel] returns has the given parent, and the nodes that
    were there keep theirs. *)
Lemma withCancel_node fuel parent st c st' :
  withCancel fuel (Some parent) st = Ok (c, st') →
  ∃ sta, heap_grows st sta ∧ steps_to sta st' ∧
         ∃ r, heap st' !! c = Some r ∧ Context_ r = parent.
Proof.
  unfold withCancel, newCancelCtx. intros H.
  apply bind_Ok in H as (c0 & sta & Ha & H). injection Ha as <- <-.
  apply bind_Ok in H as ([] & s2 & Hp & H). apply ret_Ok in H as [Hc Hs].
  subst c s2. apply propagateCancel_steps in Hp.
  eexists. split; [apply alloc_grows|]. split; [done|].
  destruct (st_node _ _ Hp (fresh (dom (heap st)))
              {| Context_ := parent; done := None; children := None;
                 err := None; cause := None |}) as (r & Hr & HC & _).
  { simpl. by rewrite lookup_insert_eq. }
  eauto.
Qed.

(** X3. A CancelScope is transparent to values.  On the context
    [WithCancel] returns, the lookup of any key but the sentinel is the
    parent's lookup with one unit of fuel less, panics included; and what
    the parent gave for the key before the call, the new context gives
    after it. *)
Theorem WithCancel_keeps_values fuel0 parent st ctx (f : CancelFunc) st' :
  WithCancel fuel0 (Some parent) st = Ok ((ctx, f), st') →
  ∀ key, key ≠ ACancelCtxKey →
  ∀ fuel, Value (S fuel) ctx key st' = Value fuel parent key st' ∧
          ∀ v, Value fuel parent key st = Ok v → Value (S fuel) ctx key st' = Ok v.
Proof.
  intros H key Hkey fuel.
  apply WithCancel_withCancel in H as (c & Hw & Hctx). simpl in Hctx. subst ctx.
  apply withCancel_node in Hw as (sta & Hg & Hs & r & Hr & HC).
  assert (Value (S fuel) (cancelCtxP c) key st' = Value fuel parent key st') as HV.
  { cbn [Value]. unfold cancelCtx_Value.
    rewrite any_eq_sentinel_r, bool_decide_eq_false_2 by done.
    rewrite Hr, HC. apply value_is_Value. }
  split; [done|]. intros v Hv. rewrite HV, (Value_steps _ _ Hs).
  by eapply Value_grows.
Qed.

(** X3 on [G] above the canceled [P]: the context derived from [G] gives
    what [G] gives for the key ["a"]. *)
Lemma WithCancel_keeps_values_witness :
  Value 2 (cancelCtxP 1) (AStr "a") (born_canceled store_canceled scope_G Canceled Canceled)
  = Ok (AInt 1).
Proof.
  assert (WithCancel 1 (Some scope_G) store_canceled
          = Ok ((cancelCtxP 1, λ fuel', cancel fuel' 1 true (Some Canceled) None),
                born_canceled store_canceled scope_G Canceled Canceled)) as H1.
  { unfold WithCancel.
    by rewrite (bind_eq _ _ store_canceled 1
                  (born_canceled store_canceled scope_G Canceled Canceled))
      by (vm_compute; reflexivity). }
  assert (AStr "a" ≠ ACancelCtxKey) as H2 by discriminate.
  assert (Value 1 scope_G (AStr "a") store_canceled = Ok (AInt 1)) as H3
    by reflexivity.
  exact (proj2 (WithCancel_keeps_values 1 _ _ _ _ _ H1 _ H2 1) _ H3).
Defined.

(** ** Scopes that never cancel and never expire *)

(** X4. No scope built from this package has a deadline: on a chain that
    reaches an EmptyScope after [n] nodes, through value layers and
    CancelScopes alike, [Deadline] returns the zero time and [false] with
    any fuel above [n]. *)
Theorem Deadline_none st c n :
  chain_to_empty st c n → ∀ fuel, n < fuel →
  Deadline fuel c st = Ok (0%Z, false).
Proof.
  induction 1 as [e|p k v n Hk Hch IH|l r n Hl Hch IH]; intros fuel Hfuel;
    (destruct fuel as [|fuel]; [lia|]); simpl.
  - done.
  - apply IH. lia.
  - rewrite Hl. apply IH. lia.
Qed.

(** X5. Value layers over an EmptyScope never cancel: on every store
    [Done] returns the nil channel without touching the store, [Err]
    returns nil, and [withCancel] from such a parent returns a live node,
    leaving the nodes that were there untouched. *)
Theorem empty_root_never_cancels c e :
  nearest c = emptyCtxP e →
  ∀ st, Done c st = Ok (None, st) ∧ Err c st = Ok None ∧
        ∀ fuel,
          withCancel fuel (Some c) st
          = Ok (fresh (dom (heap st)),
                {| heap := <[fresh (dom (heap st)) :=
                               {| Context_ := c; done := None; children := None;
                                  err := None; cause := None |}]> (heap st);
                   chans := chans st |}).
Proof.
  intros Hn st. split_and!.
  - by rewrite Done_nearest, Hn.
  - by rewrite Err_nearest, Hn.
  - intros fuel. unfold withCancel.
    rewrite (bind_eq _ _ st (fresh (dom (heap st))) _ eq_refl).
    assert (∀ st1 l, propagateCancel fuel c l st1 = Ok (tt, st1)) as Hp.
    { intros st1 l. unfold propagateCancel.
      assert (Done c st1 = Ok (None, st1)) as HD by by rewrite Done_nearest, Hn.
      by rewrite (bind_eq _ _ _ _ _ HD). }
    by rewrite (bind_eq _ _ _ _ _ (Hp _ _)).
Qed.

(** ** Deriving from a live parent, and the cancel function *)

(** [Done] does the same on a store and on that store with one more node. *)
Lemma Done_alloc parent st d st1 c new :
  Done parent st = Ok (d, st1) → heap st !! c = None →
  Done parent {| heap := <[c := new]> (heap st); chans := chans st |}
  = Ok (d, {| heap := <[c := new]> (heap st1); chans := chans st1 |}).
Proof.
  rewrite !(Done_nearest parent). pose proof (nearest_not_value parent) as Hnv.
  destruct (nearest parent) as [e|p k v|l|x]; simpl; intros H Hc.
  - by apply ret_Ok in H as [-> ->].
  - by destruct (Hnv p k v).
  - destruct (heap st !! l) as [r|] eqn:Hl; cycle 1.
    { unfold cancelCtx_Done, bind, deref in H. by rewrite Hl in H. }
    assert (c ≠ l) as Hne by congruence.
    destruct (done r) as [d0|] eqn:Hd.
    + rewrite (cancelCtx_Done_published _ _ _ _ Hl Hd) in H. injection H as <- <-.
      eapply cancelCtx_Done_published; [|done]. simpl.
      by rewrite lookup_insert_ne.
    + rewrite (cancelCtx_Done_fresh _ _ _ Hl Hd) in H. injection H as <- <-.
      rewrite (cancelCtx_Done_fresh l r); [|by simpl; rewrite lookup_insert_ne|done].
      simpl. by rewrite (insert_insert_ne _ c l).
  - by apply ret_Ok in H as [-> ->].
Qed.

(** X6. Deriving from a parent whose signal has not fired: [withCancel]
    first asks the parent for its signal, which publishes a channel on the
    nearest CancelScope when none was there, and then only adds the new
    node, live: no error, no cause, no signal, no children, and nothing
    that ties it to the parent's later cancellation. *)
Theorem withCancel_parent_live fuel parent st d st1 :
  Done parent st = Ok (d, st1) →
  (∀ ch, d = Some ch → is_closed st1 ch = false) →
  let c := fresh (dom (heap st)) in
  let live := {| Context_ := parent; done := None; children := None;
                 err := None; cause := None |} in
  withCancel fuel (Some parent) st
  = Ok (c, {| heap := <[c := live]> (heap st1); chans := chans st1 |}) ∧
  heap st1 !! c = None ∧
  ∀ l r, heap st !! l = Some r →
         ∃ r', heap st1 !! l = Some r' ∧ children r' = children r ∧
               err r' = err r ∧ cause r' = cause r.
Proof.
  intros HD Hopen c live.
  assert (heap st !! c = None) as Hc by apply not_elem_of_dom, is_fresh.
  split_and!.
  - unfold withCancel.
    rewrite (bind_eq _ _ st c _ eq_refl).
    assert (propagateCancel fuel parent c
              {| heap := <[c := live]> (heap st); chans := chans st |}
            = Ok (tt, {| heap := <[c := live]> (heap st1); chans := chans st1 |}))
      as Hp.
    { unfold propagateCancel.
      rewrite (bind_eq _ _ _ _ _ (Done_alloc _ _ _ _ c live HD Hc)).
      destruct d as [ch|]; [|done].
      set (stc := {| heap := <[c := live]> (heap st1); chans := chans st1 |}).
      rewrite (bind_eq _ _ stc false stc); [done|].
      apply read_eq. cbv beta. f_equal. rewrite <- (Hopen ch eq_refl).
      by destruct ch. }
    by rewrite (bind_eq _ _ _ _ _ Hp).
  - apply Done_steps in HD. by apply (st_dom _ _ HD).
  - intros l r Hl. destruct (Done_only_done _ _ _ _ HD _ _ Hl)
      as (r' & Hr' & _ & ? & ? & ? & _). eauto.
Qed.

(** X7. The cancel function [WithCancel] returns.  Whenever a call of it
    returns, the node holds an error; it is [Canceled], with cause
    [Canceled], when the node held none before.  A further call, with any
    fuel, returns and leaves the store as the first call left it. *)
Theorem CancelFunc_cancels fuel0 parent st0 ctx (f : CancelFunc) st0' :
  WithCancel fuel0 parent st0 = Ok ((ctx, f), st0') →
  ∀ fuel st st',
    f fuel st = Ok (tt, st') →
    (∃ e, Err ctx st' = Ok (Some e)) ∧
    (Err ctx st = Ok None →
     Err ctx st' = Ok (Some Canceled) ∧
     ∀ n, Cause n ctx st' = Ok (Some Canceled)) ∧
    (∀ fuel', f fuel' st' = Ok (tt, st')).
Proof.
  unfold WithCancel. intros H. inv_M.
  match goal with H : withCancel _ _ _ = Ok (?a, _) |- _ =>
    rename a into c; clear H end.
  intros fuel s s' Hf.
  destruct (heap s !! c) as [r|] eqn:Hc; cycle 1.
  { rewrite cancel_unfold in Hf. unfold bind, deref in Hf. by rewrite Hc in Hf. }
  assert (∃ r', heap s' !! c = Some r' ∧ is_Some (err r') ∧
                (err r = None → err r' = Some Canceled ∧ cause r' = Some Canceled))
    as (r' & Hc' & Hs & Hnew).
  { destruct (err r) as [e0|] eqn:He.
    - rewrite (cancel_already _ _ _ _ _ _ _ Hc) in Hf by by rewrite He.
      injection Hf as <-. exists r. rewrite He. split_and!; [done|eauto|done].
    - destruct (cancel_fired _ _ _ _ _ _ _ _ Hc He Hf) as [[_ N _] _].
      destruct (N _ _ (fired_state_lookup s c r Canceled None))
        as (r' & Hr' & _ & _ & Herr).
      destruct (Herr Canceled eq_refl) as [E1 E2]. exists r'.
      split_and!; [done|by rewrite E1|done]. }
  split_and!.
  - destruct Hs as [e He]. exists e. simpl. unfold cancelCtx_Err.
    by rewrite Hc', He.
  - simpl. unfold cancelCtx_Err. rewrite Hc. intros [= He].
    destruct (Hnew He) as [E1 E2]. rewrite Hc', E1. split; [done|].
    intros n. unfold Cause. simpl. unfold cancelCtx_Value. simpl.
    by rewrite Hc', E2.
  - intros fuel'. by eapply cancel_already.
Qed.

(** ** The fan-out of [cancel] through children maps *)

Lemma steps_keeps_canceled st st' x rx :
  steps_to st st' → heap st !! x = Some rx → is_Some (err rx) →
  ∃ rx', heap st' !! x = Some rx' ∧ is_Some (err rx').
Proof.
  intros Hs Hx [e He]. destruct (st_node _ _ Hs _ _ Hx) as (rx' & Hx' & _ & _ & Hk).
  destruct (Hk _ He) as [He' _]. exists rx'. by rewrite He'.
Qed.

Lemma cascade_refl e ca st : cascade_rel e ca st st.
Proof.
  split; [apply steps_refl| |].
  - intros l r r' Hl Hl' _. by simplify_eq.
  - intros l r r' Hl Hl' Hn [e' He']. simplify_eq.
Qed.

Lemma steps_err_None st st' l r r' :
  steps_to st st' → heap st !! l = Some r → heap st' !! l = Some r' →
  err r' = None → err r = None.
Proof.
  intros Hs Hl Hl' Hn. destruct (err r) as [e0|] eqn:He; [|done].
  destruct (st_node _ _ Hs _ _ Hl) as (r0 & Hl0 & _ & _ & Hk).
  rewrite Hl' in Hl0. injection Hl0 as <-. destruct (Hk _ He). congruence.
Qed.

Lemma steps_err_Some st st' l r r' e0 :
  steps_to st st' → heap st !! l = Some r → heap st' !! l = Some r' →
  err r = Some e0 → err r' = Some e0.
Proof.
  intros Hs Hl Hl' He.
  destruct (st_node _ _ Hs _ _ Hl) as (r0 & Hl0 & _ & _ & Hk).
  rewrite Hl' in Hl0. injection Hl0 as <-. by destruct (Hk _ He).
Qed.

Lemma cascade_trans e ca st1 st2 st3 :
  cascade_rel e ca st1 st2 → cascade_rel e ca st2 st3 → cascade_rel e ca st1 st3.
Proof.
  intros [S1 M1 N1] [S2 M2 N2]. split; [by eapply steps_trans| |].
  - intros l r1 r3 Hl1 Hl3 Heq.
    destruct (st_node _ _ S1 _ _ Hl1) as (r2 & Hl2 & _).
    assert (err r2 = err r1) as E21.
    { destruct (err r1) as [e1|] eqn:He1.
      - exact (steps_err_Some _ _ _ _ _ _ S1 Hl1 Hl2 He1).
      - apply (steps_err_None _ _ _ _ _ S2 Hl2 Hl3). congruence. }
    rewrite <- (M1 _ _ _ Hl1 Hl2 E21). eapply M2; [done..|congruence].
  - intros l r1 r3 Hl1 Hl3 Hnone Hsome.
    destruct (st_node _ _ S1 _ _ Hl1) as (r2 & Hl2 & _).
    destruct (err r2) as [e2|] eqn:He2.
    + destruct (N1 _ _ _ Hl1 Hl2 Hnone) as (E & C & K & Hch); [by rewrite He2|].
      assert (r3 = r2) as ->.
      { eapply M2; [done..|]. rewrite He2.
        exact (steps_err_Some _ _ _ _ _ _ S2 Hl2 Hl3 He2). }
      split_and!; [done..|]. intros ch Hin.
      destruct (Hch _ Hin) as (rch & Hrch & Hs).
      by eapply steps_keeps_canceled.
    + assert (r2 = r1) as -> by (eapply M1; [done..|congruence]).
      by eapply N2.
Qed.

Lemma forEach_cascade e ca (f : loc → M unit) xs :
  (∀ x s s', f x s = Ok (tt, s') →
     cascade_rel e ca s s' ∧ ∃ rx, heap s' !! x = Some rx ∧ is_Some (err rx)) →
  ∀ st st', forEach xs f st = Ok (tt, st') →
    cascade_rel e ca st st' ∧
    ∀ x, x ∈ xs → ∃ rx, heap st' !! x = Some rx ∧ is_Some (err rx).
Proof.
  intros Hf. induction xs as [|x xs IH]; simpl; intros st st' H.
  - apply ret_Ok in H as [_ ->]. split; [apply cascade_refl|].
    intros x Hx. by apply elem_of_nil in Hx.
  - inv_M. repeat match goal with u : unit |- _ => destruct u end.
    match goal with
    | H1 : f x st = Ok (tt, ?s1), H2 : forEach xs f ?s1 = Ok (tt, st') |- _ =>
        destruct (Hf _ _ _ H1) as [Hc1 (rx & Hrx & Hsx)];
        destruct (IH _ _ H2) as [Hc2 Hall]
    end.
    split; [by eapply cascade_trans|].
    intros y [->|Hy]%elem_of_cons; [|by apply Hall].
    eapply steps_keeps_canceled; [apply (cr_steps _ _ _ _ Hc2)|done..].
Qed.

Lemma cancel_sets_err fuel c rm e cause0 st st' :
  cancel fuel c rm (Some e) cause0 st = Ok (tt, st') →
  ∃ r', heap st' !! c = Some r' ∧ is_Some (err r').
Proof.
  intros H. destruct (heap st !! c) as [r|] eqn:Hc; cycle 1.
  { rewrite cancel_unfold in H. unfold bind, deref in H. by rewrite Hc in H. }
  destruct (err r) as [e0|] eqn:He.
  - rewrite (cancel_already _ _ _ _ _ _ _ Hc) in H by by rewrite He.
    injection H as <-. exists r. by rewrite He.
  - destruct (cancel_fired _ _ _ _ _ _ _ _ Hc He H) as [Hs _].
    eapply steps_keeps_canceled; [done|apply fired_state_lookup|]. simpl. eauto.
Qed.

(** The part of [cancel] that fans out and clears the children map. *)
Lemma cancel_rest_cascade fuel c r e cause0 st st' :
  (∀ fuel' child s s', fuel' < fuel →
     cancel fuel' child false (Some e) (Some (default e cause0)) s = Ok (tt, s') →
     cascade_rel e (default e cause0) s s') →
  heap st !! c = Some r → err r = None →
  steps_to st st' →
  cancel_rest fuel c false r e cause0 (fired_state st c r e cause0) = Ok (tt, st') →
  cascade_rel e (default e cause0) st st'.
Proof.
  intros IH Hc He Hsteps H. unfold cancel_rest in H. inv_M.
  repeat match goal with u : unit |- _ => destruct u end.
  match goal with
  | H1 : forEach _ _ _ = Ok (tt, ?s3), H2 : modify _ _ ?s3 = Ok (tt, _) |- _ =>
      rename H1 into Hloop; rename H2 into Hmod; rename s3 into st3
  end.
  apply forEach_cascade with (e := e) (ca := default e cause0) in Hloop
    as [[S3 M3 N3] Hall]; cycle 1.
  { intros x s s' Hx. destruct fuel as [|fuel']; [done|]. split.
    - eapply IH; [|done]. lia.
    - by eapply cancel_sets_err. }
  apply modify_Ok in Hmod as (r3 & Hc3 & ->).
  pose proof (steps_err_Some _ _ _ _ _ e S3
                (fired_state_lookup st c r e cause0) Hc3 eq_refl) as E3.
  assert (cause r3 = Some (default e cause0)) as C3.
  { destruct (st_node _ _ S3 _ _ (fired_state_lookup st c r e cause0))
      as (r3' & Hc3' & _ & _ & Hk3).
    rewrite Hc3 in Hc3'. injection Hc3' as <-.
    by destruct (Hk3 e eq_refl) as [_ ->]. }
  assert (∀ x rx, heap st3 !! x = Some rx → is_Some (err rx) →
            ∃ rx', <[c := set_children None r3]> (heap st3) !! x = Some rx' ∧
                   is_Some (err rx')) as Hkeep.
  { intros x rx Hx Hs. destruct (decide (c = x)) as [->|Hne].
    - rewrite lookup_insert_eq. eexists; split; [done|]. simpl. by rewrite E3.
    - rewrite lookup_insert_ne by done. eauto. }
  split; [done| |]; simpl.
  - intros l rl rl' Hl Hl' Heq. destruct (decide (c = l)) as [->|Hne].
    + rewrite lookup_insert_eq in Hl'. injection Hl' as <-.
      rewrite Hc in Hl. injection Hl as <-. simpl in Heq. congruence.
    + rewrite lookup_insert_ne in Hl' by done. eapply M3; [|done..].
      simpl. by rewrite lookup_insert_ne.
  - intros l rl rl' Hl Hl' Hnone Hsome. destruct (decide (c = l)) as [->|Hne].
    + rewrite lookup_insert_eq in Hl'. injection Hl' as <-.
      rewrite Hc in Hl. injection Hl as <-. simpl.
      split_and!; [done..|]. intros ch Hin.
      destruct (Hall ch) as (rch & Hrch & Hs); [by apply elem_of_elements|].
      by eapply Hkeep.
    + rewrite lookup_insert_ne in Hl' by done.
      destruct (N3 l rl rl') as (E & C & K & Hch); [|done..|].
      { simpl. by rewrite lookup_insert_ne. }
      split_and!; [done..|]. intros ch Hin.
      destruct (Hch _ Hin) as (rch & Hrch & Hs). by eapply Hkeep.
Qed.

Lemma cancel_cascade e ca fuel : ∀ c st st',
  cancel fuel c false (Some e) (Some ca) st = Ok (tt, st') →
  cascade_rel e ca st st'.
Proof.
  induction fuel as [fuel IH] using lt_wf_ind. intros c st st' H.
  destruct (heap st !! c) as [r|] eqn:Hc; cycle 1.
  { rewrite cancel_unfold in H. unfold bind, deref in H. by rewrite Hc in H. }
  destruct (err r) as [e0|] eqn:He.
  { rewrite (cancel_already _ _ _ _ _ _ _ Hc) in H by by rewrite He.
    injection H as <-. apply cascade_refl. }
  pose proof (cancel_steps _ _ _ _ _ _ _ H) as Hsteps.
  rewrite (cancel_fire _ _ _ _ _ _ _ Hc He) in H.
  assert (cancel_rest fuel c false r e (Some ca) (fired_state st c r e (Some ca))
          = Ok (tt, st')) as Hrest.
  { destruct (done r) as [d|]; [|done]. by destruct (is_closed st d). }
  apply (cancel_rest_cascade fuel c r e (Some ca) st st'); try done.
  intros fuel' child s s' Hlt Hch. by eapply IH.
Qed.

(** X8. The fan-out of [cancel].  When [cancel] with error [e] returns on a
    node that held no error, every node reached from it through the
    children maps of nodes without error holds an error afterwards; each
    one that held none before holds [e], with the cause the first node
    recorded: the given cause, or [e] when none was given. *)
Theorem cancel_cascades fuel c rm e cause0 st st' r :
  heap st !! c = Some r → err r = None →
  cancel fuel c rm (Some e) cause0 st = Ok (tt, st') →
  ∀ d, cascade_reach st c d →
    ∃ rd rd', heap st !! d = Some rd ∧ heap st' !! d = Some rd' ∧
              is_Some (err rd') ∧
              (err rd = None →
               err rd' = Some e ∧ cause rd' = Some (default e cause0)).
Proof.
  intros Hc He H. set (ca := default e cause0).
  destruct (cancel_sets_err _ _ _ _ _ _ _ H) as (rc' & Hc' & Hsc').
  pose proof H as Hrest. rewrite (cancel_fire _ _ _ _ _ _ _ Hc He) in Hrest.
  assert (cancel_rest fuel c rm r e cause0 (fired_state st c r e cause0)
          = Ok (tt, st')) as Hrest'.
  { destruct (done r) as [d0|]; [|done]. by destruct (is_closed st d0). }
  clear Hrest. unfold cancel_rest in Hrest'. inv_M.
  repeat match goal with u : unit |- _ => destruct u end.
  match goal with
  | H1 : forEach _ _ _ = Ok (tt, ?s3), H2 : modify _ _ ?s3 = Ok (tt, ?s4),
    H3 : (if rm then _ else _) ?s4 = Ok (tt, st') |- _ =>
      rename H1 into Hloop; rename H2 into Hmod; rename H3 into Hrm;
      rename s4 into st4
  end.
  assert (cancel_rest fuel c false r e cause0 (fired_state st c r e cause0)
          = Ok (tt, st4)) as Hfalse.
  { unfold cancel_rest. rewrite (bind_eq _ _ _ _ _ Hloop).
    by rewrite (bind_eq _ _ _ _ _ Hmod). }
  assert (cascade_rel e ca st st4) as [S4 _ N4].
  { apply (cancel_rest_cascade fuel c r e cause0 st st4); try done.
    - intros fuel' child s s' _ Hch. by eapply cancel_cascade.
    - eapply steps_trans; [exact (fired_state_steps st c r e cause0 Hc He)|].
      by eapply cancel_rest_steps. }
  assert (quiet st4 st') as [QD QN].
  { destruct rm; [by eapply removeChild_quiet|].
    apply ret_Ok in Hrm as [_ ->]. apply quiet_refl. }
  assert (∀ l rl rl', heap st !! l = Some rl → heap st' !! l = Some rl' →
            err rl = None → is_Some (err rl') →
            err rl' = Some e ∧ cause rl' = Some ca ∧
            ∀ ch, ch ∈ default ∅ (children rl) →
                  ∃ rch, heap st' !! ch = Some rch ∧ is_Some (err rch)) as HB.
  { intros l rl rl' Hl Hl' Hn Hs.
    destruct (st_node _ _ S4 _ _ Hl) as (rl4 & Hl4 & _).
    destruct (QN _ _ Hl4) as (rl'' & Hl'' & Eq & Cq & _).
    rewrite Hl' in Hl''. injection Hl'' as <-.
    destruct (N4 _ _ _ Hl Hl4 Hn) as (E & C & _ & Hch); [by rewrite <- Eq|].
    split_and!; [congruence..|]. intros ch Hin.
    destruct (Hch _ Hin) as (rch & Hrch & Hsch).
    destruct (QN _ _ Hrch) as (rch' & Hrch' & Eq' & _).
    exists rch'. split; [done|]. by rewrite Eq'. }
  induction 1 as [|x rx s ch Hreach IH Hx Hex Hchx Hin].
  - exists r, rc'. split_and!; [done..|]. intros _.
    by destruct (HB _ _ _ Hc Hc' He Hsc') as (? & ? & _).
  - destruct IH as (rx0 & rx' & Hx0 & Hx' & Hsx & _).
    rewrite Hx in Hx0. injection Hx0 as <-.
    destruct (HB _ _ _ Hx Hx' Hex Hsx) as (_ & _ & Hch).
    destruct (Hch ch) as (rch' & Hrch' & Hsch); [by rewrite Hchx|].
    destruct (heap st !! ch) as [rch|] eqn:Hrch; cycle 1.
    { rewrite (QD _ (st_dom _ _ S4 _ Hrch)) in Hrch'. done. }
    exists rch, rch'. split_and!; [done..|]. intros Hn.
    by destruct (HB _ _ _ Hrch Hrch' Hn Hsch) as (? & ? & _).
Qed.

(** X8 on the family [P], [C], [D]: canceling [P] reaches [D]. *)
Lemma cancel_cascades_witness :
  ∃ st' rd', cancel 2 0 true (Some Canceled) None store_family = Ok (tt, st') ∧
             heap st' !! 2 = Some rd' ∧
             err rd' = Some Canceled ∧ cause rd' = Some Canceled.
Proof.
  assert (∃ st', cancel 2 0 true (Some Canceled) None store_family = Ok (tt, st'))
    as [st' H] by (eexists; vm_compute; reflexivity).
  assert (heap store_family !! 0
          = Some {| Context_ := Background; done := None;
                    children := Some {[ 1 ]}; err := None; cause := None |})
    as H0 by reflexivity.
  assert (cascade_reach store_family 0 2) as Hreach.
  { eapply (casc_child _ _ 1 _ {[ 2 ]} 2); [|reflexivity|reflexivity|reflexivity|].
    - eapply (casc_child _ _ 0 _ {[ 1 ]} 1);
        [apply casc_self|reflexivity|reflexivity|reflexivity|].
      by apply elem_of_singleton.
    - by apply elem_of_singleton. }
  destruct (cancel_cascades 2 0 true Canceled None store_family st' _
              H0 eq_refl H 2 Hreach) as (rd & rd' & Hd & Hd' & _ & Hnew).
  assert (err rd = None) as Hn.
  { vm_compute in Hd. by injection Hd as <-. }
  destruct (Hnew Hn) as [E C].
  exists st', rd'. split_and!; [exact H|exact Hd'|exact E|exact C].
Defined.

(** ** Leaving the parent: [parentCancelCtx] and [removeChild] *)








(** ** What holds of every store the package builds *)

(** X11. [Done] and [Err] agree on every store the package builds: for a
    scope made of value layers over a CancelScope, the signal [Done]
    returns has fired exactly when [Err] returns an error. *)
Theorem Done_fired_iff_Err st G c d st1 :
  reachable st → nearest G = cancelCtxP c →
  Done G st = Ok (Some d, st1) →
  is_closed st1 d = true ↔ ∃ e, Err G st = Ok (Some e).
Proof.
  intros Hr%reachable_consistent Hn HD.
  rewrite Err_nearest, Hn. rewrite Done_nearest, Hn in HD. simpl in *.
  apply cancelCtx_Done_Ok in HD
    as (r & Hc & [(Hd & _ & ->)|(Hd & n & Heq & Hfresh & ->)]).
  - unfold cancelCtx_Err. rewrite Hc. split.
    + intros Hcl. destruct (cs_fired _ Hr _ _ _ Hc Hd Hcl) as [e He].
      exists e. by rewrite He.
    + intros [e [= He]].
      destruct (cs_err _ Hr _ _ Hc) as [_ (d' & Hd' & Hcl)]; [by rewrite He|].
      congruence.
  - injection Heq as ->. unfold cancelCtx_Err. rewrite Hc. simpl.
    rewrite lookup_insert_eq. simpl. split; [done|].
    intros [e [= He]].
    destruct (cs_err _ Hr _ _ Hc) as [_ (d' & Hd' & _)]; [by rewrite He|].
    congruence.
Qed.

(** X11 on the canceled [P]. *)
Lemma Done_fired_iff_Err_witness :
  is_closed store_canceled closedchan = true ↔
  ∃ e, Err (cancelCtxP 0) store_canceled = Ok (Some e).
Proof.
  assert (reachable store_canceled) as Hr.
  { eapply (reach_cancel 1 0 true (Some Canceled) None store_live);
      [|vm_compute; reflexivity].
    eapply (reach_withCancel 1 (Some Background) empty_state 0);
      [apply reach_empty|vm_compute; reflexivity]. }
  exact (Done_fired_iff_Err store_canceled (cancelCtxP 0) 0 closedchan
           store_canceled Hr eq_refl eq_refl).
Defined.

(** X12. On every store the package builds, canceling one node changes
    what no other node reports: [Err] and [Cause] of every other
    CancelScope are after the [cancel] what they were before it. *)
Theorem cancel_reaches_no_other st fuel p rm err0 cause0 st' :
  reachable st → cancel fuel p rm err0 cause0 st = Ok (tt, st') →
  ∀ c, c ≠ p →
    Err (cancelCtxP c) st' = Err (cancelCtxP c) st ∧
    ∀ n, Cause n (cancelCtxP c) st' = Cause n (cancelCtxP c) st.
Proof.
  intros Hr H c Hne. apply reachable_consistent in Hr.
  destruct (cancel_no_cascade _ _ _ _ _ _ _ (cs_children _ Hr) H) as [_ Hsame].
  pose proof (cancel_steps _ _ _ _ _ _ _ H) as Hs.
  simpl. unfold Cause, cancelCtx_Err. simpl. unfold cancelCtx_Value. simpl.
  destruct (heap st !! c) as [r|] eqn:Hc.
  - destruct (Hsame _ _ Hne Hc) as (r' & -> & -> & ->). done.
  - by rewrite (st_dom _ _ Hs _ Hc).
Qed.

(** X12 on parent and child: [C] after [P]'s cancel function. *)
Lemma cancel_reaches_no_other_witness :
  Err (cancelCtxP 1) store_parent_canceled = Err (cancelCtxP 1) store_parent_child.
Proof.
  assert (reachable store_parent_child) as Hr.
  { eapply (reach_withCancel 1 (Some (cancelCtxP 0)) store_live 1);
      [|vm_compute; reflexivity].
    eapply (reach_withCancel 1 (Some Background) empty_state 0);
      [apply reach_empty|vm_compute; reflexivity]. }
  assert (cancel 1 0 true (Some Canceled) None store_parent_child
          = Ok (tt, store_parent_canceled)) as H by (vm_compute; reflexivity).
  assert (1 ≠ 0) as Hne by discriminate.
  exact (proj1 (cancel_reaches_no_other store_parent_child 1 0 true
                  (Some Canceled) None store_parent_canceled Hr H 1 Hne)).
Defined.

(** X13. [Cause] trusts the lookup of the sentinel key.  [WithValue] accepts
    [&cancelCtxKey] as a key, and on a scope that stores a [*cancelCtx]
    under it [Cause] returns the cause of that node, on whatever chain the
    scope sits and whether or not the node is an ancestor. *)
Theorem Cause_follows_sentinel_value parent l :
  WithValue (Some parent) ACancelCtxKey (ACancelCtx l)
  = Ok (valueCtxP parent ACancelCtxKey (ACancelCtx l)) ∧
  ∀ fuel st r, heap st !! l = Some r →
    Cause fuel (valueCtxP parent ACancelCtxKey (ACancelCtx l)) st = Ok (cause r).
Proof.
  split; [done|]. intros fuel st r Hl.
  unfold Cause. simpl. unfold valueCtx_Value. simpl. by rewrite Hl.
Qed.

(** X13 on [Background] and the canceled [P], which is no ancestor. *)
Lemma Cause_follows_sentinel_value_witness :
  Cause 0 (valueCtxP Background ACancelCtxKey (ACancelCtx 0)) store_canceled
  = Ok (Some Canceled).
Proof.
  exact (proj2 (Cause_follows_sentinel_value Background 0) 0 store_canceled
           _ eq_refl).
Defined.

(** ** Stores built through the exported functions: lemmas *)


Lemma api_reachable_reachable st : api_reachable st → reachable st.
Proof.
  induction 1 as [|fuel parent st res st' _ IH _ H|fuel c st st' _ IH H
                 |G st d st' _ IH H].
  - constructor.
  - apply WithCancel_withCancel in H as (c & H & _). by eapply reach_withCancel.
  - by eapply reach_cancel.
  - by eapply reach_Done.
Qed.

Lemma api_parent_steps st st' c :
  (∀ l r, heap st !! l = Some r → is_Some (heap st' !! l)) →
  api_parent st c → api_parent st' c.
Proof.
  intros Hs [Hsf Hn]. split; [done|].
  destruct (nearest c); try done. destruct Hn as [r Hr]. eauto.
Qed.

(** A step that allocates nothing and gives a node either the error and
    cause it had or [Canceled] twice keeps the invariant. *)
Lemma api_inv_step st st' :
  api_inv st → steps_to st st' →
  (∀ l r r', heap st !! l = Some r → heap st' !! l = Some r' →
     (err r' = err r ∧ cause r' = cause r) ∨
     (err r' = Some Canceled ∧ cause r' = Some Canceled)) →
  api_inv st'.
Proof.
  intros [AE AP] Hs Hec.
  assert (∀ l r', heap st' !! l = Some r' →
            ∃ r, heap st !! l = Some r ∧ Context_ r' = Context_ r) as Hback.
  { intros l r' Hl'. destruct (heap st !! l) as [r|] eqn:Hl.
    - destruct (st_node _ _ Hs _ _ Hl) as (r0 & Hl0 & HC & _).
      rewrite Hl' in Hl0. injection Hl0 as <-. eauto.
    - rewrite (st_dom _ _ Hs _ Hl) in Hl'. done. }
  split.
  - intros l r' Hl'. destruct (Hback _ _ Hl') as (r & Hl & _).
    destruct (Hec _ _ _ Hl Hl') as [[-> ->]|[-> ->]]; [by eapply AE|auto].
  - intros l r' Hl'. destruct (Hback _ _ Hl') as (r & Hl & ->).
    eapply api_parent_steps; [|by eapply AP].
    intros l0 r0 Hl0. destruct (st_node _ _ Hs _ _ Hl0) as (? & -> & _). eauto.
Qed.

Lemma Done_api_inv G st d st' : api_inv st → Done G st = Ok (d, st') → api_inv st'.
Proof.
  intros Hinv H. eapply api_inv_step; [done|by eapply Done_steps|].
  intros l r r' Hl Hl'. left.
  destruct (Done_only_done _ _ _ _ H _ _ Hl) as (r0 & Hl0 & _ & ? & ? & _).
  rewrite Hl' in Hl0. by injection Hl0 as <-.
Qed.

Lemma cancel_api_inv fuel c st st' :
  api_inv st → no_children st →
  cancel fuel c true (Some Canceled) None st = Ok (tt, st') → api_inv st'.
Proof.
  intros Hinv Hno H. eapply api_inv_step; [done|by eapply cancel_steps|].
  intros l r r' Hl Hl'.
  destruct (decide (l = c)) as [->|Hne].
  - destruct (err r) as [e0|] eqn:He.
    + rewrite (cancel_already _ _ _ _ _ _ _ Hl) in H by by rewrite He.
      injection H as <-. rewrite Hl' in Hl. injection Hl as ->. by left.
    + destruct (cancel_fired _ _ _ _ _ _ _ _ Hl He H) as [[_ N _] _].
      destruct (N _ _ (fired_state_lookup st c r Canceled None))
        as (r0 & Hl0 & _ & _ & Hk).
      rewrite Hl' in Hl0. injection Hl0 as <-.
      destruct (Hk Canceled eq_refl) as [E C]. right. by rewrite E, C.
  - destruct (cancel_no_cascade _ _ _ _ _ _ _ Hno H) as [_ Hsame].
    destruct (Hsame _ _ Hne Hl) as (r0 & Hl0 & ? & ?).
    rewrite Hl' in Hl0. injection Hl0 as <-. by left.
Qed.

(** On a store that keeps the invariant, a parent over a CancelScope
    reports [Canceled] or nothing, and its cause is its error. *)
Lemma api_Err st G e :
  api_inv st → (∀ x, nearest G ≠ extCtxP x) →
  Err G st = Ok (Some e) → e = Canceled.
Proof.
  intros [AE _] Hx. rewrite Err_nearest. pose proof (nearest_not_value G) as Hnv.
  destruct (nearest G) as [?|p k v|l|x]; simpl; try done.
  - by destruct (Hnv p k v).
  - unfold cancelCtx_Err. destruct (heap st !! l) as [r|] eqn:Hl; [|done].
    intros [= He]. destruct (AE _ _ Hl) as [[?|?] _]; congruence.
  - by destruct (Hx x).
Qed.

Lemma api_Cause st G fuel ca :
  api_inv st → (∀ x, nearest G ≠ extCtxP x) →
  Cause fuel G st = Ok ca → ca = None ∨ ca = Some Canceled.
Proof.
  intros [AE _] _. unfold Cause.
  destruct (Value fuel G ACancelCtxKey st) as [v| |]; simpl; [|done..].
  destruct v; try (intros [= <-]; by left).
  destruct (heap st !! l) as [r|] eqn:Hl; [|done].
  intros [= <-]. destruct (AE _ _ Hl) as [[He|He] ->]; rewrite He; auto.
Qed.

Lemma withCancel_api_inv fuel parent st c st' :
  api_inv st → api_parent st parent →
  withCancel fuel (Some parent) st = Ok (c, st') → api_inv st'.
Proof.
  intros Hinv Hpar H. unfold withCancel, newCancelCtx in H. inv_M.
  injection Hm as <- <-.
  destruct (alloc_grows st {| Context_ := parent; done := None; children := None;
                              err := None; cause := None |}) as [Hfresh [Hg _]].
  set (c := fresh (dom (heap st))) in *.
  set (sta := {| heap := _; chans := _ |}) in *.
  repeat match goal with u : unit |- _ => destruct u end.
  assert (api_inv sta) as Hinva.
  { destruct Hinv as [AE AP]. split.
    - intros l r. unfold sta. simpl. destruct (decide (c = l)) as [->|Hne].
      + rewrite lookup_insert_eq. intros [= <-]. simpl. auto.
      + rewrite lookup_insert_ne by done. apply AE.
    - intros l r. unfold sta. simpl. destruct (decide (c = l)) as [->|Hne].
      + rewrite lookup_insert_eq. intros [= <-]. simpl.
        eapply api_parent_steps; [|done]. intros l0 r0 Hl0. exists r0. by apply Hg.
      + rewrite lookup_insert_ne by done. intros Hl.
        eapply api_parent_steps; [|by eapply AP].
        intros l0 r0 Hl0. exists r0. by apply Hg. }
  unfold propagateCancel in Hm0. inv_M.
  pose proof (Done_api_inv _ _ _ _ Hinva Hm) as Hinv0.
  destruct a as [d|]; inv_M; [|done].
  match goal with H : (if ?b then _ else _) _ = _ |- _ => destruct b end;
    inv_M; [|done].
  match goal with H : cancel _ _ _ _ _ _ = _ |- _ => rename H into Hcancel end.
  match goal with H : Err parent _ = Ok ?a |- _ => rename H into HE; rename a into eo end.
  match goal with H : Cause _ parent _ = Ok ?a |- _ => rename H into HCa; rename a into cao end.
  destruct eo as [e|]; [|rewrite cancel_unfold in Hcancel; discriminate Hcancel].
  assert (∀ x, nearest parent ≠ extCtxP x) as Hnx.
  { intros x Hx. destruct Hpar as [_ Hp]. by rewrite Hx in Hp. }
  pose proof (api_Err _ _ _ Hinv0 Hnx HE) as ->.
  assert (default Canceled cao = Canceled) as Hca.
  { by destruct (api_Cause _ _ _ _ Hinv0 Hnx HCa) as [->| ->]. }
  destruct (Done_only_done _ _ _ _ Hm c _ ltac:(unfold sta; simpl; by rewrite lookup_insert_eq))
    as (r0 & Hc0 & _ & He0 & _ & Hch0 & _). simpl in He0, Hch0.
  pose proof (cancel_leaf _ _ _ _ _ _ _ Hc0 He0 Hch0 Hcancel) as Hheap.
  eapply api_inv_step; [exact Hinv0|by eapply cancel_steps|].
  intros l r r' Hl Hl'. rewrite Hheap in Hl'.
  destruct (decide (c = l)) as [<-|Hne].
  - rewrite lookup_insert_eq in Hl'. injection Hl' as <-. right. simpl.
    by rewrite Hca.
  - rewrite lookup_insert_ne in Hl' by done. left.
    rewrite Hl in Hl'. by injection Hl' as <-.
Qed.

Lemma api_reachable_inv st : api_reachable st → api_inv st.
Proof.
  induction 1 as [|fuel parent st res st' Hr IH Hp H|fuel c st st' Hr IH H
                 |G st d st' Hr IH H].
  - split; intros l r Hl; simpl in Hl; by rewrite lookup_empty in Hl.
  - apply WithCancel_withCancel in H as (c & H & _).
    by eapply withCancel_api_inv.
  - eapply cancel_api_inv; [done| |done].
    apply cs_children, reachable_consistent, api_reachable_reachable, Hr.
  - by eapply Done_api_inv.
Qed.

Lemma api_parent_Done st G :
  api_parent st G → ∃ d st1, Done G st = Ok (d, st1).
Proof.
  intros [_ Hn]. rewrite Done_nearest.
  destruct (nearest G) as [e|?|p|?]; try done.
  - eexists _, _. reflexivity.
  - destruct Hn as [r Hr]. simpl. destruct (done r) as [d|] eqn:Hd.
    + eexists _, _. by eapply cancelCtx_Done_published.
    + eexists _, _. by eapply cancelCtx_Done_fresh.
Qed.

(** X14. As long as every parent given to [WithCancel] is made of this
    package's nodes alone ([api_parent]: no [Context] implemented outside
    the package, no value layer keyed by the sentinel), [Cause] tells
    nothing that [Err] does not: on a store built from the empty one by
    [WithCancel] on such parents, the cancel functions it returned and
    [Done], and on a context that is itself such a parent, the two return
    the same with fuel for the value layers, and that is nil or
    [Canceled]. *)
Theorem api_Cause_is_Err st G fuel :
  api_reachable st → api_parent st G → vdepth G ≤ fuel →
  Cause fuel G st = Err G st ∧
  (Err G st = Ok None ∨ Err G st = Ok (Some Canceled)).
Proof.
  intros [AE _]%api_reachable_inv [Hsf Hn] Hfuel.
  unfold Cause. rewrite (Value_sentinel st G Hsf fuel Hfuel), Err_nearest.
  destruct (nearest G) as [e|?|p|?]; try done.
  - simpl. auto.
  - destruct Hn as [r Hr]. simpl. unfold cancelCtx_Err. rewrite Hr.
    destruct (AE _ _ Hr) as [[He|He] ->]; rewrite He; auto.
Qed.

(** X15. As long as every parent given to [WithCancel] is made of this
    package's nodes alone ([api_parent]: no [Context] implemented outside
    the package, no value layer keyed by the sentinel), nothing panics: on
    a store built from the empty one by [WithCancel] on such parents, the
    cancel functions it returned and [Done], the cancel function of every
    node returns with fuel for the value layers of the node's parent, and
    [WithCancel] returns on every such parent with fuel for its value
    layers. *)
Theorem api_never_panics st :
  api_reachable st →
  (∀ c r fuel, heap st !! c = Some r → vdepth (Context_ r) ≤ fuel →
     ∃ st', cancel fuel c true (Some Canceled) None st = Ok (tt, st')) ∧
  (∀ parent fuel, api_parent st parent → vdepth parent ≤ fuel →
     ∃ res st', WithCancel fuel (Some parent) st = Ok (res, st')).
Proof.
  intros Hapi. pose proof (api_reachable_inv _ Hapi) as [AE AP].
  pose proof (reachable_consistent _ (api_reachable_reachable _ Hapi)) as Hcs.
  split.
  - intros c r fuel Hc Hfuel. apply cancel_ready_returns.
    exists r. split; [done|]. intros He. split_and!.
    + intros d Hd. destruct (is_closed st d) eqn:Hcl; [|done].
      destruct (cs_fired _ Hcs _ _ _ Hc Hd Hcl) as [? ?]. congruence.
    + by eapply cs_children.
    + intros _. destruct (AP _ _ Hc) as [Hsf Hn]. by split_and!.
  - intros parent fuel Hpar Hfuel.
    set (live := {| Context_ := parent; done := None; children := None;
                    err := None; cause := None |}).
    destruct (alloc_grows st live) as [Hfresh [Hg _]].
    set (c := fresh (dom (heap st))) in *.
    set (sta := {| heap := <[c := live]> (heap st); chans := chans st |}) in *.
    pose proof (alloc_consistent st parent Hcs) as Hcsa. fold c live sta in Hcsa.
    assert (api_parent sta parent) as Hpara.
    { eapply api_parent_steps; [|done]. intros l0 r0 Hl0. exists r0. by apply Hg. }
    destruct (api_parent_Done _ _ Hpara) as (d & st1 & HD).
    pose proof (Done_consistent _ _ _ _ Hcsa HD) as Hcs1.
    assert (∃ st', propagateCancel fuel parent c sta = Ok (tt, st')) as [st' Hp].
    { unfold propagateCancel. rewrite (bind_eq _ _ _ _ _ HD).
      destruct d as [d|]; [|unfold ret; eauto].
      destruct (is_closed st1 d) eqn:Hcl; cycle 1.
      { rewrite (bind_eq _ _ st1 false st1) by (apply read_eq; by rewrite Hcl).
        unfold ret. eauto. }
      rewrite (bind_eq _ _ st1 true st1) by (apply read_eq; by rewrite Hcl).
      destruct (Done_fired _ _ _ _ HD Hcl) as [-> Hn].
      destruct Hpara as [Hsf Hn'].
      destruct (nearest parent) as [?|?|p|?] eqn:Hnear; try done.
      destruct Hn as (rp & Hrp & Hdp).
      destruct (cs_fired _ Hcsa _ _ _ Hrp Hdp Hcl) as [e He].
      assert (Err parent sta = Ok (Some e)) as HE.
      { rewrite Err_nearest, Hnear. simpl. unfold cancelCtx_Err.
        by rewrite Hrp, He. }
      assert (Cause fuel parent sta = Ok (cause rp)) as HC.
      { unfold Cause. rewrite (Value_sentinel sta parent Hsf fuel Hfuel), Hnear.
        unfold obind. by rewrite Hrp. }
      rewrite (bind_eq _ _ _ _ _ (read_eq _ _ _ HE)).
      rewrite (bind_eq _ _ _ _ _ (read_eq _ _ _ HC)).
      eapply (cancel_returns fuel c false e (cause rp) sta live); try done.
      unfold sta. simpl. by rewrite lookup_insert_eq. }
    eexists _, st'. unfold WithCancel, withCancel.
    unfold bind at 1. unfold bind at 1.
    change (newCancelCtx parent st) with (Ok (c, sta)).
    unfold bind at 1. rewrite Hp. reflexivity.
Qed.

(** X14 and X15 on the store with the canceled [P] and on [G] above it. *)
Lemma api_store_canceled : api_reachable store_canceled.
Proof.
  eapply (api_CancelFunc 1 0 store_live); [|vm_compute; reflexivity].
  eapply (api_WithCancel 1 Background empty_state
            (cancelCtxP 0, λ fuel', cancel fuel' 0 true (Some Canceled) None));
    [apply api_empty|split; exact I|].
  unfold WithCancel.
  by rewrite (bind_eq _ _ empty_state 0 store_live) by (vm_compute; reflexivity).
Defined.

Lemma api_Cause_is_Err_witness :
  Cause 1 scope_G store_canceled = Err scope_G store_canceled.
Proof.
  assert (api_parent store_canceled scope_G) as Hp.
  { split; [split; [discriminate|exact I]|]. simpl. eexists. reflexivity. }
  assert (vdepth scope_G ≤ 1) as Hf by (simpl; lia).
  exact (proj1 (api_Cause_is_Err store_canceled scope_G 1
                  api_store_canceled Hp Hf)).
Defined.

Lemma api_never_panics_witness :
  ∃ res st', WithCancel 1 (Some scope_G) store_canceled = Ok (res, st').
Proof.
  assert (api_parent store_canceled scope_G) as Hp.
  { split; [split; [discriminate|exact I]|]. simpl. eexists. reflexivity. }
  assert (vdepth scope_G ≤ 1) as Hf by (simpl; lia).
  exact (proj2 (api_never_panics store_canceled api_store_canceled)
           scope_G 1 Hp Hf).
Defined.

(** ** The guard of [parentCancelCtx] *)

(** X16. [parentCancelCtx] returns no node but the nearest CancelScope.  On
    every store the package builds and every parent of this package, also
    one with value layers keyed by the sentinel that hold some other
    [*cancelCtx], a node it returns is the CancelScope below the value
    layers of the parent, and its signal is the one [Done] of the parent
    returned, which is not [closedchan]. *)
Theorem parentCancelCtx_nearest fuel parent st p st1 :
  reachable st → (∀ x, nearest parent ≠ extCtxP x) →
  parentCancelCtx fuel parent st = Ok (Some p, st1) →
  nearest parent = cancelCtxP p ∧
  ∃ n rp, Done parent st = Ok (Some (mkchan n), st1) ∧
          heap st1 !! p = Some rp ∧ done rp = Some (mkchan n).
Proof.
  intros Hcs%reachable_consistent Hext H. unfold parentCancelCtx in H.
  apply bind_Ok in H as (d & s1 & HD & H).
  pose proof (Done_consistent _ _ _ _ Hcs HD) as Hcs1.
  destruct (bool_decide (d = Some closedchan ∨ d = None)) eqn:Hd.
  { by apply ret_Ok in H as [? _]. }
  apply bool_decide_eq_false_1 in Hd.
  destruct d as [[|n]|]; [destruct Hd; auto| |destruct Hd; auto].
  apply bind_Ok in H as (v & s2 & Hv & H).
  unfold read in Hv.
  destruct (Value fuel parent ACancelCtxKey s1) as [v0| |]; try done.
  injection Hv as <- <-.
  destruct v0 as [| | | | |q| |]; try by apply ret_Ok in H as [? _].
  apply bind_Ok in H as (rq & s3 & Hq & H). apply deref_Ok in Hq as [Hq <-].
  destruct (bool_decide (done rq ≠ Some (mkchan n))) eqn:Hdq.
  { by apply ret_Ok in H as [? _]. }
  apply ret_Ok in H as [Hp Hs]. injection Hp as Hp. subst q s3.
  apply bool_decide_eq_false_1 in Hdq.
  assert (done rq = Some (mkchan n)) as Hdone.
  { destruct (decide (done rq = Some (mkchan n))); [done|by destruct Hdq]. }
  split; [|eauto].
  revert HD. rewrite Done_nearest. pose proof (nearest_not_value parent) as Hnv.
  destruct (nearest parent) as [e|p' k v|l|x] eqn:Hn; simpl; intros HD.
  - by apply ret_Ok in HD as [? _].
  - by destruct (Hnv p' k v).
  - f_equal.
    assert (∃ rl, heap st1 !! l = Some rl ∧ done rl = Some (mkchan n))
      as (rl & Hl & Hdl).
    { apply cancelCtx_Done_Ok in HD
        as (r & Hl & [(Hdr & _ & ->)|(_ & m & [= ->] & _ & ->)]); [eauto|].
      eexists. simpl. rewrite lookup_insert_eq. split; [done|]. done. }
    exact (cs_own _ Hcs1 _ _ _ _ _ Hl Hq Hdl Hdone).
  - by destruct (Hext x).
Qed.

Lemma reachable_store_parent_child : reachable store_parent_child.
Proof.
  eapply (reach_withCancel 1 (Some (cancelCtxP 0)) store_live 1);
    [|vm_compute; reflexivity].
  eapply (reach_withCancel 1 (Some Background) empty_state 0);
    [apply reach_empty|vm_compute; reflexivity].
Defined.

(** X16 on [P] with its channel published. *)
Lemma parentCancelCtx_nearest_witness :
  nearest (cancelCtxP 0) = cancelCtxP 0 ∧
  ∃ n rp, Done (cancelCtxP 0) store_parent_child
          = Ok (Some (mkchan n), store_parent_child) ∧
          heap store_parent_child !! 0 = Some rp ∧ done rp = Some (mkchan n).
Proof.
  assert (∀ x, nearest (cancelCtxP 0) ≠ extCtxP x) as H1 by (intros x; discriminate).
  assert (parentCancelCtx 0 (cancelCtxP 0) store_parent_child
          = Ok (Some 0, store_parent_child)) as H2 by (vm_compute; reflexivity).
  exact (parentCancelCtx_nearest 0 (cancelCtxP 0) store_parent_child 0
           store_parent_child reachable_store_parent_child H1 H2).
Defined.

(** ** Instances of the properties above *)

(** X1 for [G]: the key ["a"] gives [1] on the empty store. *)
Lemma WithValue_then_Value_witness :
  Value 0 scope_G (AStr "a") empty_state = Ok (AInt 1).
Proof.
  assert (WithValue (Some (cancelCtxP 0)) (AStr "a") (AInt 1) = Ok scope_G)
    as H1 by reflexivity.
  assert (any_eq (AStr "a") (AStr "a") = Some true) as H2 by reflexivity.
  exact (WithValue_then_Value _ _ _ _ H1 H2 0 empty_state).
Defined.

(** X2 for [G] and the key ["b"], and for a scope that stores [1] under
    NaN: the lookup of NaN is the lookup on [Background]. *)
Lemma WithValue_other_key_witness :
  Value 2 scope_G (AStr "b") store_live
  = Value 1 (cancelCtxP 0) (AStr "b") store_live ∧
  Value 1 (valueCtxP Background (AFloat NaN) (AInt 1)) (AFloat NaN) empty_state
  = Value 0 Background (AFloat NaN) empty_state.
Proof.
  assert (WithValue (Some (cancelCtxP 0)) (AStr "a") (AInt 1) = Ok scope_G)
    as H1 by reflexivity.
  assert (any_eq (AStr "a") (AStr "b") = Some false) as H2 by reflexivity.
  assert (WithValue (Some Background) (AFloat NaN) (AInt 1)
          = Ok (valueCtxP Background (AFloat NaN) (AInt 1))) as H3 by reflexivity.
  assert (any_eq (AFloat NaN) (AFloat NaN) = Some false) as H4 by reflexivity.
  split.
  - exact (WithValue_other_key _ _ _ _ _ H1 H2 1 store_live).
  - exact (WithValue_other_key _ _ _ _ _ H3 H4 0 empty_state).
Defined.

(** X4 for [G] above the live [P]. *)
Lemma Deadline_none_witness :
  Deadline 3 scope_G store_live = Ok (0%Z, false).
Proof.
  assert (chain_to_empty store_live scope_G 2) as H1.
  { apply chain_value; [reflexivity|].
    eapply chain_cancel; [reflexivity|]. apply chain_empty. }
  assert (2 < 3) as H2 by lia.
  exact (Deadline_none store_live scope_G 2 H1 3 H2).
Defined.

(** X5 for a value layer on [Background], on the store with the live [P]. *)
Lemma empty_root_never_cancels_witness :
  Done (valueCtxP Background (AStr "a") (AInt 1)) store_live
  = Ok (None, store_live) ∧
  Err (valueCtxP Background (AStr "a") (AInt 1)) store_live = Ok None.
Proof.
  assert (nearest (valueCtxP Background (AStr "a") (AInt 1))
          = emptyCtxP background) as H1 by reflexivity.
  destruct (empty_root_never_cancels _ _ H1 store_live) as (HD & HE & _).
  split; [exact HD | exact HE].
Defined.

(** X6: deriving [C] from the live [P] gives the store with both, [P] with
    its channel published and [C] live. *)
Lemma withCancel_parent_live_witness :
  withCancel 1 (Some (cancelCtxP 0)) store_live = Ok (1, store_parent_child).
Proof.
  assert (Done (cancelCtxP 0) store_live
          = Ok (Some (mkchan 0),
                {| heap := {[ 0 := {| Context_ := Background;
                                      done := Some (mkchan 0); children := None;
                                      err := None; cause := None |} ]};
                   chans := {[ 0 := false ]} |})) as H1
    by (vm_compute; reflexivity).
  destruct (withCancel_parent_live 1 _ _ _ _ H1) as (Hw & _ & _).
  - intros ch [= <-]. reflexivity.
  - rewrite Hw. vm_compute. reflexivity.
Defined.

(** X7 for the cancel function of [P]. *)
Lemma CancelFunc_cancels_witness :
  Err (cancelCtxP 0) store_canceled = Ok (Some Canceled) ∧
  ∀ n, Cause n (cancelCtxP 0) store_canceled = Ok (Some Canceled).
Proof.
  assert (WithCancel 1 (Some Background) empty_state
          = Ok ((cancelCtxP 0, λ fuel', cancel fuel' 0 true (Some Canceled) None),
                store_live)) as H1.
  { unfold WithCancel.
    by rewrite (bind_eq _ _ empty_state 0 store_live) by (vm_compute; reflexivity). }
  assert (cancel 1 0 true (Some Canceled) None store_live
          = Ok (tt, store_canceled)) as H2 by (vm_compute; reflexivity).
  destruct (CancelFunc_cancels 1 _ _ _ _ _ H1 1 store_live store_canceled H2)
    as (_ & Hnew & _).
  exact (Hnew eq_refl).
Defined.
